(** * Pak: a shallow embedding of [Pak.h] and its verification

    [Pak.h] is a header-only binary serializer.  One generic traversal,
    [Pak::parse], is instantiated for three passes ([Reserve], [Write] and
    [Read]) and walks arithmetic primitives, pairs, fixed arrays, dynamic
    containers, maps and user-defined types.

    The embedding follows the header top to bottom:
    - the byte order helpers [shouldByteSwap] and [byteSwap];
    - the [Pak] object (a byte vector and three [size_t] members) threaded
      through an error/state monad;
    - the overloads of [parse], selected here by a type descriptor [Ty]
      instead of by template argument deduction;
    - the public members [write], [read] and [read<T>()].

    Arithmetic values are kept as bit patterns (a [Z] below [256 ^ sizeof T]),
    so that integers and floating-point numbers are treated alike; memory is
    a list of bytes, each a [Z] below [256]. *)

From Stdlib Require Import ZArith List Bool Lia Arith Sorted.
Import ListNotations.

#[local] Set Warnings "-register-all".
Local Open Scope Z_scope.

(** ** Bytes and object representations *)

Module Bytes.

(** The [n] low-order bytes of [x], least significant first. *)
Fixpoint le_bytes (n : nat) (x : Z) : list Z :=
  match n with
  | O => []
  | S n' => x mod 256 :: le_bytes n' (x / 256)
  end.

(** The number whose little-endian digits are [bs]. *)
Fixpoint le_value (bs : list Z) : Z :=
  match bs with
  | [] => 0
  | b :: bs' => b + 256 * le_value bs'
  end.

Definition is_byte (b : Z) : Prop := 0 <= b < 256.

(** Cutting a buffer into [count] pieces of [n] bytes. *)
Fixpoint chunks (n count : nat) (l : list Z) : list (list Z) :=
  match count with
  | O => []
  | S c => firstn n l :: chunks n c (skipn n l)
  end.

End Bytes.

Import Bytes.

(** ** Arithmetic types *)

(** The types for which [std::is_arithmetic] holds, with the sizes of the
    usual LP64 and LLP64 targets. *)
Inductive Arith : Type :=
| Bool | Int8 | UInt8 | Int16 | UInt16 | Int32 | UInt32 | Int64 | UInt64
| Float | Double.

Definition sizeof (T : Arith) : nat :=
  match T with
  | Bool | Int8 | UInt8 => 1
  | Int16 | UInt16 => 2
  | Int32 | UInt32 | Float => 4
  | Int64 | UInt64 | Double => 8
  end%nat.

Definition is_integral (T : Arith) : bool :=
  match T with
  | Float | Double => false
  | _ => true
  end.

(** A bit pattern that fits an object of type [T]. *)
Definition fits (T : Arith) (x : Z) : Prop := 0 <= x < 256 ^ Z.of_nat (sizeof T).

(** ** Byte swapping (lines 35-60) *)

(** [__builtin_bswap16/32/64]: byte [i] of the operand becomes byte
    [n - 1 - i] of the result. *)
Fixpoint bswap (n : nat) (x : Z) : Z :=
  match n with
  | O => 0
  | S n' =>
      Z.lor (Z.shiftl (Z.land x 255) (8 * Z.of_nat n')) (bswap n' (Z.shiftr x 8))
  end.

Definition builtin_bswap16 : Z -> Z := bswap 2.
Definition builtin_bswap32 : Z -> Z := bswap 4.
Definition builtin_bswap64 : Z -> Z := bswap 8.

(** [byteSwap(T& t)].  The three [enable_integral<T, Size>] overloads cover
    the integral types of size 2, 4 and 8; every other argument selects
    [void byteSwap(...) { }], which leaves it alone.  The conversions
    between [T] and the unsigned operand of the builtin keep the bit
    pattern. *)
Definition byteSwap (T : Arith) (t : Z) : Z :=
  if is_integral T then
    match sizeof T with
    | 2%nat => builtin_bswap16 t
    | 4%nat => builtin_bswap32 t
    | 8%nat => builtin_bswap64 t
    | _ => t
    end
  else t.

(** ** Host byte order (lines 19-33) *)

Inductive Endian : Type := LittleEndian | BigEndian.

Section Host.

Variable host : Endian.

(** The object representation of a [T] holding [x], and back. *)
Definition host_repr (n : nat) (x : Z) : list Z :=
  match host with
  | LittleEndian => le_bytes n x
  | BigEndian => rev (le_bytes n x)
  end.

Definition host_value (bs : list Z) : Z :=
  match host with
  | LittleEndian => le_value bs
  | BigEndian => le_value (rev bs)
  end.

(** [int endianTest = 1; bool isBigEndian = ( *(uint8_t* )&endianTest == 0);] *)
Definition isBigEndian : bool :=
  let endianTest := host_repr 4 1 in
  hd 1 endianTest =? 0.

(** [shouldByteSwap<T>()]: the first overload is enabled for
    [(sizeof(T) > 1) && is_integral<T>], the second, which returns [false],
    for [(sizeof(T) == 1) || !is_integral<T>]. *)
Definition shouldByteSwap (T : Arith) : bool :=
  if (1 <? sizeof T)%nat && is_integral T then isBigEndian else false.

(** [copyPrimitive(T& dst, T src)]: the value left in [dst]. *)
Definition copyPrimitive (T : Arith) (src : Z) : Z :=
  let dst := src in
  if shouldByteSwap T then byteSwap T dst else dst.

(** [copyPrimitiveArray(T* dst, T* src, size_t numBytes)]: the bytes left at
    [dst], given the [numBytes] bytes found at [src].  After the [memcpy],
    the loop swaps the [numBytes / sizeof(T)] objects of [dst] in place. *)
Definition copyPrimitiveArray (T : Arith) (src : list Z) : list Z :=
  let numBytes := length src in
  if (0 <? numBytes)%nat then
    let dst := src in
    if shouldByteSwap T then
      concat (map (fun current => host_repr (sizeof T) (byteSwap T (host_value current)))
                  (chunks (sizeof T) (numBytes / sizeof T) dst))
    else dst
  else [].

End Host.

(** ** The [Pak] object and its effects *)

(** The data members (lines 351-354).  The buffer is bounded by the address
    space, so the [size_t] members never wrap and are kept as [nat]. *)
Record Pak : Type := mkPak {
  bytes : list Z;
  reserveSize : nat;
  writePosition : nat;
  readPosition : nat
}.

(** [Pak() {}] *)
Definition Pak_new : Pak := mkPak [] 0 0 0.

(** [data()] and [size()] *)
Definition data (pak : Pak) : list Z := bytes pak.
Definition size (pak : Pak) : nat := length (bytes pak).

(** How a traversal can end without a result.
    - [ConstViolation]: one of the three
      [static_assert(..., "Pak cannot read into a const value")];
    - [NoOverload]: no category overload of [parse] accepts the argument
      (only the variadic forwarder of lines 157-162 is left, which calls
      itself again), or the selected body is ill-formed for it;
    - [OutOfBounds]: [bytes[position]] past the end of the vector;
    - [BadValue]: the value handed to the embedding does not inhabit the
      type descriptor (no C++ counterpart: the compiler excludes it). *)
Inductive Error : Type := ConstViolation | NoOverload | OutOfBounds | BadValue.

Inductive Result (A : Type) : Type :=
| Ok (a : A)
| Fail (e : Error).
Arguments Ok {A} a.
Arguments Fail {A} e.

(** Member functions read and update the [Pak]; the state survives a
    failure, so that what a failed pass left behind can be inspected. *)
Definition M (A : Type) : Type := Pak -> Result A * Pak.

Definition ret {A} (a : A) : M A := fun pak => (Ok a, pak).
Definition fail {A} (e : Error) : M A := fun pak => (Fail e, pak).
Definition bind {A B} (m : M A) (k : A -> M B) : M B :=
  fun pak =>
    match m pak with
    | (Ok a, pak') => k a pak'
    | (Fail e, pak') => (Fail e, pak')
    end.

Declare Scope pak_scope.
Delimit Scope pak_scope with pak.
Notation "x <- m ;; k" := (bind m (fun x => k))
  (at level 61, m at next level, right associativity) : pak_scope.
Notation "m ;; k" := (bind m (fun _ => k))
  (at level 61, right associativity) : pak_scope.
Local Open Scope pak_scope.

Definition get_writePosition : M nat := fun pak => (Ok (writePosition pak), pak).
Definition get_readPosition : M nat := fun pak => (Ok (readPosition pak), pak).

(** [reserveSize += n] *)
Definition add_reserveSize (n : nat) : M unit :=
  fun pak => (Ok tt, mkPak (bytes pak) (reserveSize pak + n)
                            (writePosition pak) (readPosition pak)).

(** [writePosition += n] *)
Definition add_writePosition (n : nat) : M unit :=
  fun pak => (Ok tt, mkPak (bytes pak) (reserveSize pak)
                            (writePosition pak + n) (readPosition pak)).

(** [readPosition += n] *)
Definition add_readPosition (n : nat) : M unit :=
  fun pak => (Ok tt, mkPak (bytes pak) (reserveSize pak)
                            (writePosition pak) (readPosition pak + n)).

(** Overwriting [buf] from offset [pos] on. *)
Definition splice (pos : nat) (data buf : list Z) : list Z :=
  firstn pos buf ++ data ++ skipn (pos + length data) buf.

(** A store through [&bytes[pos]]: the bytes must lie inside the vector.
    Nothing is accessed when there is nothing to store. *)
Definition store (pos : nat) (data : list Z) : M unit :=
  fun pak =>
    match data with
    | [] => (Ok tt, pak)
    | _ =>
        if (pos + length data <=? length (bytes pak))%nat
        then (Ok tt, mkPak (splice pos data (bytes pak)) (reserveSize pak)
                            (writePosition pak) (readPosition pak))
        else (Fail OutOfBounds, pak)
    end.

(** A load of [n] bytes through [&bytes[pos]]. *)
Definition load (pos n : nat) : M (list Z) :=
  fun pak =>
    match n with
    | O => (Ok [], pak)
    | _ =>
        if (pos + n <=? length (bytes pak))%nat
        then (Ok (firstn n (skipn pos (bytes pak))), pak)
        else (Fail OutOfBounds, pak)
    end.

(** [bytes.resize(bytes.size() + n)]: the new bytes are value-initialised. *)
Definition grow (n : nat) : M unit :=
  fun pak => (Ok tt, mkPak (bytes pak ++ repeat 0 n) (reserveSize pak)
                            (writePosition pak) (readPosition pak)).

(** ** Types and values *)

(** [std::iterator_traits<It>::iterator_category], as far as
    [enable_if_contiguous_range] tells the tags apart. *)
Inductive iterator_category : Type :=
| random_access_iterator_tag
| bidirectional_iterator_tag.

(** Which trait found the hook of a user-defined type:
    [is_userdefined_internal] ([t.serialize(op)]) or
    [is_userdefined_external] ([serialize(op, t)]). *)
Inductive Hook : Type := MemberSerialize | FreeSerialize.

(** The static type of an argument of [parse], by the overload that
    accepts it.  A [TContainer] with random access iterators stands for
    [std::vector] and [std::basic_string], whose elements are contiguous;
    one with bidirectional iterators for [std::list].  ([std::deque] has
    random access iterators over storage that is not contiguous, which the
    single [memcpy] of lines 185-203 does not provide for: it is left out.
    So is [std::vector<bool>], whose iterators yield proxy objects of which
    line 209 cannot take the address.)
    Multi-dimensional arrays [E[N][M]] are flattened by line 229 and are
    [TStaticArray (N * M) E] here. *)
Inductive Ty : Type :=
| TArith (A : Arith)                               (* arithmetic primitive *)
| TConst (T : Ty)                                  (* const T *)
| TStaticArray (N : nat) (E : Ty)                  (* E[N], lines 226-234 *)
| TPair (A B : Ty)                                 (* std::pair<A, B> *)
| TArray (N : nat) (E : Ty)                        (* std::array<E, N> *)
| TContainer (cat : iterator_category) (E : Ty)    (* is_container, not is_map *)
| TMap (K V : Ty)                                  (* std::map<K, V> *)
| TUser (hook : Hook) (fields : list Ty).          (* forwards its fields to op *)

(** Run-time values.  A map is kept as its entries in iteration order. *)
Inductive Value : Type :=
| VArith (bits : Z)
| VPair (first second : Value)
| VArray (elems : list Value)
| VSeq (elems : list Value)
| VMap (entries : list (Value * Value))
| VUser (fields : list Value).

(** The three passes: [struct Reserve; struct Write; struct Read;]. *)
Inductive OpType : Type := Reserve | Write | Read.

Definition is_Read (op : OpType) : bool :=
  match op with Read => true | _ => false end.

(** [std::remove_const<T>::type] *)
Definition remove_const (T : Ty) : Ty :=
  match T with
  | TConst T' => T'
  | _ => T
  end.

(** The value of a default-constructed [T] ([T t;] in [read<T>()], and the
    elements [resize] adds).  An arithmetic [t] is indeterminate there;
    [Read] overwrites it before anything looks at it. *)
Fixpoint default (T : Ty) : Value :=
  match T with
  | TArith _ => VArith 0
  | TConst T' => default T'
  | TStaticArray N E => VArray (repeat (default E) N)
  | TPair A B => VPair (default A) (default B)
  | TArray N E => VArray (repeat (default E) N)
  | TContainer _ _ => VSeq []
  | TMap _ _ => VMap []
  | TUser _ fields => VUser (map default fields)
  end.

(** [t.resize(n)] on a sequence of [E]. *)
Definition resize (n : nat) (E : Ty) (elems : list Value) : list Value :=
  firstn n elems ++ repeat (default E) (n - length elems).

(** [static_cast<std::uint32_t>(container.size())] *)
Definition uint32_of_size (n : nat) : Z := Z.of_nat n mod 2 ^ 32.

(** Induction on [Ty] with the hypothesis for every field of a [TUser]. *)
Fixpoint Ty_induction (P : Ty -> Prop)
    (HArith : forall A, P (TArith A))
    (HConst : forall T, P T -> P (TConst T))
    (HStatic : forall N E, P E -> P (TStaticArray N E))
    (HPair : forall A B, P A -> P B -> P (TPair A B))
    (HArray : forall N E, P E -> P (TArray N E))
    (HContainer : forall cat E, P E -> P (TContainer cat E))
    (HMap : forall K V, P K -> P V -> P (TMap K V))
    (HUser : forall hook fields, Forall P fields -> P (TUser hook fields))
    (T : Ty) {struct T} : P T :=
  let rec := Ty_induction P HArith HConst HStatic HPair HArray HContainer HMap HUser in
  match T with
  | TArith A => HArith A
  | TConst T' => HConst T' (rec T')
  | TStaticArray N E => HStatic N E (rec E)
  | TPair A B => HPair A B (rec A) (rec B)
  | TArray N E => HArray N E (rec E)
  | TContainer cat E => HContainer cat E (rec E)
  | TMap K V => HMap K V (rec K) (rec V)
  | TUser hook fields =>
      HUser hook fields
        ((fix all (l : list Ty) : Forall P l :=
            match l with
            | [] => Forall_nil P
            | T' :: l' => Forall_cons T' (rec T') (all l')
            end) fields)
  end.

(** ** The traversal engine *)

(** [for(auto it = begin; it != end; it++) parse(op, *it);] (lines 151-152) *)
Fixpoint for_each {A} (f : A -> M A) (l : list A) : M (list A) :=
  match l with
  | [] => ret []
  | x :: l' => x' <- f x ;; r <- for_each f l' ;; ret (x' :: r)
  end.

(** [for(std::uint32_t i = 0; i < numElements; i++) t.insert(t.end(), read<value_type>());] *)
Fixpoint insert_loop {A} (insert : A -> list A -> list A) (read_value : M A)
    (numElements : nat) (t : list A) : M (list A) :=
  match numElements with
  | O => ret t
  | S n => x <- read_value ;; insert_loop insert read_value n (insert x t)
  end.

(** [std::iterator_traits<It>::value_type], when it is arithmetic: the
    element type without its qualifier, and whether it had one. *)
Definition arithmetic_value_type (E : Ty) : option (Arith * bool) :=
  match E with
  | TArith A => Some (A, false)
  | TConst (TArith A) => Some (A, true)
  | _ => None
  end.

(** [enable_if_contiguous_range<T>] (lines 171-176).  [is_iterator<T>] is
    asked about [T] itself, not about [remove_reference<T>] as at line 147:
    for iterators passed as lvalues [T] is a reference type, [T*] cannot be
    formed and the trait is false. *)
Definition enable_if_contiguous_range
    (lvalue : bool) (cat : iterator_category) (E : Ty) : option (Arith * bool) :=
  if lvalue then None
  else match cat with
       | random_access_iterator_tag => arithmetic_value_type E
       | bidirectional_iterator_tag => None
       end.

Fixpoint all_bits (elems : list Value) : option (list Z) :=
  match elems with
  | [] => Some []
  | VArith x :: elems' =>
      match all_bits elems' with
      | Some xs => Some (x :: xs)
      | None => None
      end
  | _ => None
  end.

Section Engine.

Variable host : Endian.

(** The [Compare] of [std::map<K, V, Compare>]. *)
Variable key_comp : Value -> Value -> bool.

(** [t.insert(t.end(), x)] on a [std::map]: the hint does not change the
    outcome; an entry with an equivalent key blocks the insertion. *)
Fixpoint map_insert (x : Value * Value) (t : list (Value * Value))
  : list (Value * Value) :=
  match t with
  | [] => [x]
  | e :: t' =>
      if key_comp (fst x) (fst e) then x :: e :: t'
      else if key_comp (fst e) (fst x) then e :: map_insert x t'
      else e :: t'
  end.

(** *** Primitive (lines 313-349) *)
Definition parse_arith (op : OpType) (cq : bool) (T : Arith) (t : Z) : M Z :=
  match op with
  | Reserve =>
      add_reserveSize (sizeof T) ;;
      ret t
  | Write =>
      wp <- get_writePosition ;;
      store wp (host_repr host (sizeof T) (copyPrimitive host T t)) ;;
      add_writePosition (sizeof T) ;;
      ret t
  | Read =>
      if cq then fail ConstViolation      (* static_assert, line 346 *)
      else
        rp <- get_readPosition ;;
        src <- load rp (sizeof T) ;;
        add_readPosition (sizeof T) ;;
        ret (copyPrimitive host T (host_value host src))
  end.

(** [read<std::uint32_t>()] (lines 110-116) *)
Definition read_uint32 : M Z := parse_arith Read false UInt32 0.

(** *** Contiguous range optimization (lines 167-223)

    [const_elems]: the iterators point to [const] objects.  Then
    [copyPrimitiveArray(T* dst, T* src, ...)] gets a [T*] and a [const T*]
    and [T] cannot be deduced. *)
Definition parse_contiguous (op : OpType) (T : Arith) (const_elems : bool)
    (elems : list Value) : M (list Value) :=
  match all_bits elems with
  | None => fail BadValue
  | Some xs =>
      let numBytes := (length xs * sizeof T)%nat in
      match op with
      | Reserve =>
          add_reserveSize numBytes ;;
          ret elems
      | Write =>
          if const_elems then fail NoOverload
          else
            wp <- get_writePosition ;;
            store wp (copyPrimitiveArray host T
                        (concat (map (host_repr host (sizeof T)) xs))) ;;
            add_writePosition numBytes ;;
            ret elems
      | Read =>
          if const_elems then fail NoOverload
          else
            rp <- get_readPosition ;;
            src <- load rp numBytes ;;
            add_readPosition numBytes ;;
            ret (map (fun c => VArith (host_value host c))
                     (chunks (sizeof T) (length xs) (copyPrimitiveArray host T src)))
      end
  end.

(** [parse(op, begin, end)]: the contiguous overloads are more specialised
    than the iterator pair overload of lines 146-155 and win when enabled.
    [const_iters]: the range is that of a const container. *)
Definition parse_range (op : OpType) (lvalue : bool) (cat : iterator_category)
    (const_iters : bool) (E : Ty) (parse_elem : Value -> M Value)
    (elems : list Value) : M (list Value) :=
  match enable_if_contiguous_range lvalue cat E with
  | Some (T, const_elems) => parse_contiguous op T (const_iters || const_elems) elems
  | None => for_each parse_elem elems
  end.

(** *** The overloads of [parse] for one argument

    [cq]: the argument is reached through a [const] lvalue. *)
Fixpoint parse (op : OpType) (cq : bool) (T : Ty) {struct T} : Value -> M Value :=
  match T with
  | TArith A => fun t =>
      match t with
      | VArith x => x' <- parse_arith op cq A x ;; ret (VArith x')
      | _ => fail BadValue
      end
  | TConst T' => parse op true T'
  | TStaticArray _ E => fun t =>
      (* lines 226-234: [begin] and [end] are local variables, hence lvalues;
         a [const E[N]] binds with [T = const E] *)
      match t with
      | VArray elems =>
          elems' <- parse_range op true random_access_iterator_tag cq E
                      (parse op cq E) elems ;;
          ret (VArray elems')
      | _ => fail BadValue
      end
  | TPair A B => fun t =>
      (* lines 237-241; [std::pair<T, U>&] does not bind a const pair *)
      match t with
      | VPair first second =>
          if cq then fail NoOverload
          else
            first' <- parse op false A first ;;
            second' <- parse op false B second ;;
            ret (VPair first' second')
      | _ => fail BadValue
      end
  | TArray _ E => fun t =>
      (* lines 244-248; [std::array<T, S>&] does not bind a const array *)
      match t with
      | VArray elems =>
          if cq then fail NoOverload
          else
            elems' <- parse_range op false random_access_iterator_tag false E
                        (parse op false E) elems ;;
            ret (VArray elems')
      | _ => fail BadValue
      end
  | TContainer cat E => fun t =>
      match t with
      | VSeq elems =>
          match op with
          | Read =>
              (* lines 274-280; [t.resize] wants a mutable container *)
              if cq then fail NoOverload
              else
                n <- read_uint32 ;;
                let t := resize (Z.to_nat n) E elems in
                elems' <- parse_range Read false cat false E
                            (parse Read false E) t ;;
                ret (VSeq elems')
          | _ =>
              (* lines 251-258; a const container binds with [T = const C]
                 and is walked through its const iterators *)
              let containerSize := uint32_of_size (length elems) in
              parse_arith op false UInt32 containerSize ;;
              elems' <- parse_range op false cat cq E (parse op cq E) elems ;;
              ret (VSeq elems')
          end
      | _ => fail BadValue
      end
  | TMap K V => fun t =>
      match t with
      | VMap entries =>
          match op with
          | Read =>
              (* lines 260-272; [is_map] is false of a const map, which is
                 left to lines 274-280 and their [resize] *)
              if cq then fail NoOverload
              else
                numElements <- read_uint32 ;;
                let read_value_type :=
                  (first <- parse Read false (remove_const K)
                                  (default (remove_const K)) ;;
                   second <- parse Read false V (default V) ;;
                   ret (first, second)) in
                let t := @nil (Value * Value) in        (* t.clear() *)
                t' <- insert_loop map_insert read_value_type
                        (Z.to_nat numElements) t ;;
                ret (VMap t')
          | _ =>
              (* lines 251-258; the elements are [std::pair<const K, V>],
                 visited one by one through the pair overload, which does
                 not bind the const pairs of a const map *)
              let containerSize := uint32_of_size (length entries) in
              parse_arith op false UInt32 containerSize ;;
              entries' <- for_each
                            (fun e =>
                               if cq then fail NoOverload
                               else
                                 first <- parse op true K (fst e) ;;
                                 second <- parse op false V (snd e) ;;
                                 ret (first, second))
                            entries ;;
              ret (VMap entries')
          end
      | _ => fail BadValue
      end
  | TUser _ fields => fun t =>
      (* lines 282-311: the hook forwards the fields, [op(f1, ..., fn)];
         the [const T&] overloads assert [OpType != Read] and cast the
         qualifier away *)
      match t with
      | VUser vals =>
          if cq && is_Read op then fail ConstViolation
          else
            vals' <- (fix args (Ts : list Ty) (vs : list Value) {struct Ts}
                        : M (list Value) :=
                        match Ts, vs with
                        | [], [] => ret []
                        | T' :: Ts', v :: vs' =>
                            v' <- parse op false T' v ;;
                            r <- args Ts' vs' ;;
                            ret (v' :: r)
                        | _, _ => fail BadValue
                        end) fields vals ;;
            ret (VUser vals')
      | _ => fail BadValue
      end
  end.

(** *** Variadic template evaluation (lines 157-165)

    The arguments are taken one at a time, left to right.  (Two adjacent
    arguments that are iterators of one type are taken together by lines
    146-155; being lvalues there, they are visited element by element like
    a [TStaticArray].) *)
Fixpoint parse_args (op : OpType) (Ts : list Ty) (args : list Value)
  : M (list Value) :=
  match Ts, args with
  | [], [] => ret []
  | T :: Ts', t :: args' =>
      t' <- parse op false T t ;;
      r <- parse_args op Ts' args' ;;
      ret (t' :: r)
  | _, _ => fail BadValue
  end.

End Engine.

(** ** The static assertions

    [static_assert(!std::is_same<OpType, Read>::value, ...)] (lines 287 and
    302) and [static_assert(!std::is_const<T>::value, ...)] (line 346) are
    decided when [parse] is instantiated, from the types alone.
    [static_asserts_hold op cq T] follows the instantiations that
    [parse(Op<op>, T&)] causes and tells whether all of them pass. *)
Fixpoint static_asserts_hold (op : OpType) (cq : bool) (T : Ty) {struct T} : bool :=
  match T with
  | TArith _ => negb (cq && is_Read op)
  | TConst T' => static_asserts_hold op true T'
  | TStaticArray _ E => static_asserts_hold op cq E
  | TPair A B =>
      cq || (static_asserts_hold op false A && static_asserts_hold op false B)
  | TArray _ E =>
      cq || match enable_if_contiguous_range false random_access_iterator_tag E with
            | Some _ => true
            | None => static_asserts_hold op false E
            end
  | TContainer cat E =>
      cq || match enable_if_contiguous_range false cat E with
            | Some _ => true
            | None => static_asserts_hold op false E
            end
  | TMap K V =>
      cq || ((if is_Read op then static_asserts_hold op false (remove_const K)
              else static_asserts_hold op true K)
             && static_asserts_hold op false V)
  | TUser _ fields =>
      negb (cq && is_Read op) && forallb (static_asserts_hold op false) fields
  end.

(** ** The public members (lines 88-116) *)

Section Members.

Variable host : Endian.
Variable key_comp : Value -> Value -> bool.

(** [write(args...)]: the [Reserve] pass, one [resize], the [Write] pass. *)
Definition write (Ts : list Ty) (args : list Value) : M unit :=
  parse_args host key_comp Reserve Ts args ;;
  (fun pak => grow (reserveSize pak) pak) ;;
  parse_args host key_comp Write Ts args ;;
  ret tt.

(** [read(args...)]: the values left in the destinations.  A program in
    which a static assertion fails has no run at all: the traversal starts
    only when the instantiation passed them. *)
Definition read (Ts : list Ty) (args : list Value) : M (list Value) :=
  if forallb (static_asserts_hold Read false) Ts
  then parse_args host key_comp Read Ts args
  else fail ConstViolation.

(** [T read()]: [T t; parse(Op<Read>{*this}, t); return t;] *)
Definition read_T (T : Ty) : M Value :=
  if static_asserts_hold Read false T
  then parse host key_comp Read false T (default T)
  else fail ConstViolation.

(** [Pak(args...)]: the constructor writes its arguments. *)
Definition Pak_of (Ts : list Ty) (args : list Value) : Result unit * Pak :=
  write Ts args Pak_new.

End Members.

(** ** The wire format, stated independently of the traversal *)

Section Wire.

Variable host : Endian.
Variable key_comp : Value -> Value -> bool.

(** What one arithmetic value leaves in the buffer. *)
Definition wire_arith (T : Arith) (x : Z) : list Z :=
  host_repr host (sizeof T) (copyPrimitive host T x).

Fixpoint wire (T : Ty) {struct T} : Value -> list Z :=
  match T with
  | TArith A => fun v =>
      match v with VArith x => wire_arith A x | _ => [] end
  | TConst T' => wire T'
  | TStaticArray _ E | TArray _ E => fun v =>
      match v with VArray elems => concat (map (wire E) elems) | _ => [] end
  | TPair A B => fun v =>
      match v with VPair a b => wire A a ++ wire B b | _ => [] end
  | TContainer _ E => fun v =>
      match v with
      | VSeq elems =>
          le_bytes 4 (uint32_of_size (length elems)) ++ concat (map (wire E) elems)
      | _ => []
      end
  | TMap K V => fun v =>
      match v with
      | VMap entries =>
          le_bytes 4 (uint32_of_size (length entries))
            ++ concat (map (fun e => wire K (fst e) ++ wire V (snd e)) entries)
      | _ => []
      end
  | TUser _ fields => fun v =>
      match v with
      | VUser vals =>
          (fix go (Ts : list Ty) (vs : list Value) {struct Ts} : list Z :=
             match Ts, vs with
             | T' :: Ts', v' :: vs' => wire T' v' ++ go Ts' vs'
             | _, _ => []
             end) fields vals
      | _ => []
      end
  end.

Fixpoint wire_args (Ts : list Ty) (args : list Value) : list Z :=
  match Ts, args with
  | T :: Ts', v :: args' => wire T v ++ wire_args Ts' args'
  | _, _ => []
  end.

(** A [std::map] keeps its keys in strictly increasing order. *)
Definition key_before (a b : Value * Value) : Prop :=
  key_comp (fst a) (fst b) = true /\ key_comp (fst b) (fst a) = false.

Definition map_sorted (entries : list (Value * Value)) : Prop :=
  StronglySorted key_before entries.

(** [has_type T v]: [v] is a value of the C++ type [T]. *)
Fixpoint has_type (T : Ty) {struct T} : Value -> Prop :=
  match T with
  | TArith A => fun v =>
      match v with VArith x => fits A x | _ => False end
  | TConst T' => has_type T'
  | TStaticArray N E | TArray N E => fun v =>
      match v with
      | VArray elems => length elems = N /\ Forall (has_type E) elems
      | _ => False
      end
  | TPair A B => fun v =>
      match v with VPair a b => has_type A a /\ has_type B b | _ => False end
  | TContainer _ E => fun v =>
      match v with VSeq elems => Forall (has_type E) elems | _ => False end
  | TMap K V => fun v =>
      match v with
      | VMap entries =>
          Forall (fun e => has_type K (fst e) /\ has_type V (snd e)) entries
          /\ map_sorted entries
      | _ => False
      end
  | TUser _ fields => fun v =>
      match v with
      | VUser vals =>
          (fix all (Ts : list Ty) (vs : list Value) {struct Ts} : Prop :=
             match Ts, vs with
             | [], [] => True
             | T' :: Ts', v' :: vs' => has_type T' v' /\ all Ts' vs'
             | _, _ => False
             end) fields vals
      | _ => False
      end
  end.

Fixpoint have_types (Ts : list Ty) (args : list Value) : Prop :=
  match Ts, args with
  | [], [] => True
  | T :: Ts', v :: args' => has_type T v /\ have_types Ts' args'
  | _, _ => False
  end.

(** [counts_fit T v]: every dynamic container inside [v] has a size that the
    32-bit count can hold. *)
Fixpoint counts_fit (T : Ty) {struct T} : Value -> Prop :=
  match T with
  | TArith _ => fun _ => True
  | TConst T' => counts_fit T'
  | TStaticArray _ E | TArray _ E => fun v =>
      match v with VArray elems => Forall (counts_fit E) elems | _ => True end
  | TPair A B => fun v =>
      match v with VPair a b => counts_fit A a /\ counts_fit B b | _ => True end
  | TContainer _ E => fun v =>
      match v with
      | VSeq elems =>
          Z.of_nat (length elems) < 2 ^ 32 /\ Forall (counts_fit E) elems
      | _ => True
      end
  | TMap K V => fun v =>
      match v with
      | VMap entries =>
          Z.of_nat (length entries) < 2 ^ 32
          /\ Forall (fun e => counts_fit K (fst e) /\ counts_fit V (snd e)) entries
      | _ => True
      end
  | TUser _ fields => fun v =>
      match v with
      | VUser vals =>
          (fix all (Ts : list Ty) (vs : list Value) {struct Ts} : Prop :=
             match Ts, vs with
             | T' :: Ts', v' :: vs' => counts_fit T' v' /\ all Ts' vs'
             | _, _ => True
             end) fields vals
      | _ => True
      end
  end.

(** The same for an argument list. *)
Fixpoint counts_fit_args (Ts : list Ty) (args : list Value) : Prop :=
  match Ts, args with
  | T :: Ts', v :: args' => counts_fit T v /\ counts_fit_args Ts' args'
  | _, _ => True
  end.

End Wire.

(** [traversable cq T]: at every node of [T] one of the category overloads
    of [parse] is selected and its body is well-formed, in the [Reserve] and
    in the [Write] pass. *)
Fixpoint traversable (cq : bool) (T : Ty) {struct T} : bool :=
  match T with
  | TArith _ => true
  | TConst T' => traversable true T'
  | TStaticArray _ E => traversable cq E
  | TPair A B => negb cq && traversable false A && traversable false B
  | TArray _ E =>
      negb cq && match enable_if_contiguous_range false random_access_iterator_tag E with
                 | Some (_, const_elems) => negb const_elems
                 | None => traversable false E
                 end
  | TContainer cat E =>
      match enable_if_contiguous_range false cat E with
      | Some (_, const_elems) => negb (cq || const_elems)
      | None => traversable cq E
      end
  | TMap K V => negb cq && traversable true K && traversable false V
  | TUser _ fields => forallb (traversable false) fields
  end.

(** No [const] anywhere in [T]. *)
Fixpoint unqualified (T : Ty) {struct T} : bool :=
  match T with
  | TArith _ => true
  | TConst _ => false
  | TStaticArray _ E | TArray _ E | TContainer _ E => unqualified E
  | TPair A B | TMap A B => unqualified A && unqualified B
  | TUser _ fields => forallb unqualified fields
  end.

(** ** What a pass leaves behind *)

(** The [Pak] after a [Reserve] pass that counted [n] bytes. *)
Definition reserved (n : nat) (pak : Pak) : Pak :=
  mkPak (bytes pak) (reserveSize pak + n) (writePosition pak) (readPosition pak).

(** The [Pak] after a [Write] pass that stored [data] at the write cursor. *)
Definition written (data : list Z) (pak : Pak) : Pak :=
  mkPak (splice (writePosition pak) data (bytes pak)) (reserveSize pak)
        (writePosition pak + length data) (readPosition pak).

(** The [Pak] after a [Read] pass that consumed [n] bytes. *)
Definition consumed (n : nat) (pak : Pak) : Pak :=
  mkPak (bytes pak) (reserveSize pak) (writePosition pak) (readPosition pak + n).

(** The [Write] pass finds room for [n] more bytes. *)
Definition room (n : nat) (pak : Pak) : Prop :=
  (writePosition pak + n <= length (bytes pak))%nat.

(** The unread part of the buffer starts with [data]. *)
Definition unread (data : list Z) (pak : Pak) : Prop :=
  exists post,
    skipn (readPosition pak) (bytes pak) = data ++ post
    /\ (readPosition pak <= length (bytes pak))%nat.

(** The outcome of each pass on one argument of type [T], in terms of the
    wire format. *)
Section PassSpecs.

Variable host : Endian.
Variable key_comp : Value -> Value -> bool.

Definition Reserve_spec (T : Ty) : Prop :=
  forall cq v pak,
    traversable cq T = true -> has_type key_comp T v ->
    parse host key_comp Reserve cq T v pak
    = (Ok v, reserved (length (wire host T v)) pak).

Definition Write_spec (T : Ty) : Prop :=
  forall cq v pak,
    traversable cq T = true -> has_type key_comp T v ->
    room (length (wire host T v)) pak ->
    parse host key_comp Write cq T v pak = (Ok v, written (wire host T v) pak).

Definition Read_spec (T : Ty) : Prop :=
  forall v d pak,
    unqualified T = true ->
    has_type key_comp T v -> counts_fit T v -> has_type key_comp T d ->
    unread (wire host T v) pak ->
    parse host key_comp Read false T d pak
    = (Ok v, consumed (length (wire host T v)) pak).

End PassSpecs.

(** [pak'] has the buffer and the two cursors of [pak]. *)
Definition same_buffer (pak pak' : Pak) : Prop :=
  bytes pak' = bytes pak
  /\ writePosition pak' = writePosition pak
  /\ readPosition pak' = readPosition pak.

(** A computation that leaves the buffer and the cursors alone, whether it
    succeeds or fails. *)
Definition keeps_buffer {A} (m : M A) : Prop :=
  forall pak, same_buffer pak (snd (m pak)).

(** A destination that is immutable where [parse] asserts mutability: a
    const arithmetic object, or a const object of a user-defined type with
    either kind of hook. *)
Definition const_destination (T : Ty) : Prop :=
  (exists A, T = TConst (TArith A))
  \/ (exists hook fields, T = TConst (TUser hook fields)).

(** The destinations that the traversal of a mutable [T] hands to [parse]:
    [T] itself, the elements, members and fields inside it.
    [reaches_const T]: one of them is a [const_destination].  (The elements
    of a contiguous arithmetic range are handed to [copyPrimitiveArray], not
    to [parse], and the key of a map is read into a [remove_const] copy.) *)
Inductive reaches_const : Ty -> Prop :=
| reaches_here T :
    const_destination T -> reaches_const T
| reaches_static_elem N E :
    reaches_const E -> reaches_const (TStaticArray N E)
| reaches_first A B :
    reaches_const A -> reaches_const (TPair A B)
| reaches_second A B :
    reaches_const B -> reaches_const (TPair A B)
| reaches_array_elem N E :
    enable_if_contiguous_range false random_access_iterator_tag E = None ->
    reaches_const E -> reaches_const (TArray N E)
| reaches_container_elem cat E :
    enable_if_contiguous_range false cat E = None ->
    reaches_const E -> reaches_const (TContainer cat E)
| reaches_key K V :
    reaches_const (remove_const K) -> reaches_const (TMap K V)
| reaches_mapped K V :
    reaches_const V -> reaches_const (TMap K V)
| reaches_field hook fields T :
    In T fields -> reaches_const T -> reaches_const (TUser hook fields).

(** Whether the traversal of one pass stays inside the buffer on a range of
    [n] elements of type [T]. *)
Definition in_bounds (op : OpType) (T : Arith) (n : nat) (pak : Pak) : Prop :=
  match op with
  | Reserve => True
  | Write => room (n * sizeof T) pak
  | Read => (readPosition pak + n * sizeof T <= length (bytes pak))%nat
  end.

(** ** The portable [byteSwap] (lines 49-57)

    The branch for compilers without a byte swap intrinsic works on the
    object representation of [t]: [begin] and [end] are byte pointers,
    here indices into the bytes of the object. *)

(** [*p = x] for a byte pointer [p] at index [i]. *)
Fixpoint set_byte (i : nat) (x : Z) (mem : list Z) : list Z :=
  match mem, i with
  | [], _ => []
  | _ :: mem', O => x :: mem'
  | b :: mem', S i' => b :: set_byte i' x mem'
  end.

(** [std::swap( *begin, *end )] *)
Definition swap_bytes (begin_ end_ : nat) (mem : list Z) : list Z :=
  let a := nth begin_ mem 0 in
  let b := nth end_ mem 0 in
  set_byte end_ a (set_byte begin_ b mem).

(** [while(begin < end) std::swap( *begin++, *end-- );]  [None]: the loop
    is still running when the fuel is spent. *)
Fixpoint swap_loop (fuel begin_ end_ : nat) (mem : list Z) : option (list Z) :=
  match fuel with
  | O => if (begin_ <? end_)%nat then None else Some mem
  | S fuel' =>
      if (begin_ <? end_)%nat
      then swap_loop fuel' (begin_ + 1) (end_ - 1) (swap_bytes begin_ end_ mem)
      else Some mem
  end.

(** [byteSwap(T& t)] of lines 49-57, on the [sizeof(T)] bytes of [t]:
    [begin = (uint8_t* )&t] and [end = (uint8_t* )(&t + 1) - 1]. *)
Definition byteSwap_generic (mem : list Z) : option (list Z) :=
  swap_loop (length mem) 0 (length mem - 1) mem.

(** ** Shapes of types *)


(** ** The stream and what the [Read] pass keeps of a [Pak] *)


(** A relation between the [Pak] before and after a computation that the
    computation keeps whatever its outcome. *)
Definition keeps {A} (R : Pak -> Pak -> Prop) (m : M A) : Prop :=
  forall pak, R pak (snd (m pak)).

(** [Read] pass: the vector, the reservation and the write cursor stay, the
    read cursor does not move back. *)
Definition Read_frame (pak pak' : Pak) : Prop :=
  bytes pak' = bytes pak
  /\ reserveSize pak' = reserveSize pak
  /\ writePosition pak' = writePosition pak
  /\ (readPosition pak <= readPosition pak')%nat.



(** * Verification *)

(** ** Bytes *)

Lemma le_bytes_length n : forall x, length (le_bytes n x) = n.
Proof. induction n; intros; simpl; auto. Qed.

Lemma le_bytes_are_bytes n : forall x, Forall is_byte (le_bytes n x).
Proof.
  induction n; intros; simpl; constructor; auto.
  unfold is_byte. apply Z.mod_pos_bound. lia.
Qed.

Lemma le_value_bounds bs :
  Forall is_byte bs -> 0 <= le_value bs < 256 ^ Z.of_nat (length bs).
Proof.
  induction 1 as [|b bs Hb _ IH].
  - simpl. lia.
  - cbn [le_value length]. rewrite Nat2Z.inj_succ, Z.pow_succ_r by lia.
    unfold is_byte in Hb. lia.
Qed.

Lemma le_value_le_bytes n : forall x,
  0 <= x < 256 ^ Z.of_nat n -> le_value (le_bytes n x) = x.
Proof.
  induction n; intros x Hx.
  - simpl in *. lia.
  - cbn [le_bytes le_value]. rewrite Nat2Z.inj_succ, Z.pow_succ_r in Hx by lia.
    rewrite IHn.
    + pose proof (Z.div_mod x 256). lia.
    + split.
      * apply Z.div_pos; lia.
      * apply Z.div_lt_upper_bound; lia.
Qed.

Lemma le_bytes_le_value bs :
  Forall is_byte bs -> le_bytes (length bs) (le_value bs) = bs.
Proof.
  induction 1 as [|b bs Hb _ IH]; [reflexivity|].
  cbn [length le_bytes le_value]. unfold is_byte in Hb.
  rewrite <- (Z.mod_unique (b + 256 * le_value bs) 256 (le_value bs) b) by lia.
  rewrite <- (Z.div_unique (b + 256 * le_value bs) 256 (le_value bs) b) by lia.
  now rewrite IH.
Qed.

Lemma le_value_app a b :
  le_value (a ++ b) = le_value a + 256 ^ Z.of_nat (length a) * le_value b.
Proof.
  induction a as [|x a IH].
  - cbn [app le_value length]. change (Z.of_nat 0) with 0. rewrite Z.pow_0_r. lia.
  - cbn [app le_value length]. rewrite IH, Nat2Z.inj_succ, Z.pow_succ_r by lia.
    ring.
Qed.

Lemma chunks_concat n (ls : list (list Z)) :
  Forall (fun c => length c = n) ls ->
  chunks n (length ls) (concat ls) = ls.
Proof.
  induction 1 as [|c ls Hc _ IH]; [reflexivity|].
  cbn [length chunks concat].
  rewrite firstn_app, skipn_app, Hc, Nat.sub_diag.
  rewrite <- Hc at 1. rewrite firstn_all.
  rewrite <- Hc at 2. rewrite skipn_all.
  cbn [firstn skipn app]. rewrite app_nil_r, IH. reflexivity.
Qed.

(** ** The byte order helpers *)

Lemma lor_disjoint k a r :
  0 <= k -> 0 <= r < 2 ^ k -> Z.lor (a * 2 ^ k) r = a * 2 ^ k + r.
Proof.
  intros Hk Hr.
  pose proof (Z.add_lor_land (a * 2 ^ k) r) as Hadd.
  assert (Hland : Z.land (a * 2 ^ k) r = 0); [|lia].
  apply Z.bits_inj'. intros i Hi.
  rewrite Z.land_spec, Z.bits_0.
  destruct (Z.lt_ge_cases i k) as [Hlt|Hge].
  - rewrite Z.mul_pow2_bits_low by lia. reflexivity.
  - destruct (Z.eq_dec r 0) as [->|Hr0].
    + rewrite Z.bits_0. apply andb_false_r.
    + rewrite (Z.bits_above_log2 r i); [apply andb_false_r|lia|].
      apply Z.log2_lt_pow2; [lia|].
      apply Z.lt_le_trans with (2 ^ k); [lia|].
      apply Z.pow_le_mono_r; lia.
Qed.

Lemma bswap_rev n : forall x, bswap n x = le_value (rev (le_bytes n x)).
Proof.
  induction n as [|n IH]; intros x; [reflexivity|].
  cbn [bswap le_bytes rev].
  rewrite le_value_app, length_rev, le_bytes_length, IH.
  change 255 with (Z.ones 8). rewrite Z.land_ones, Z.shiftl_mul_pow2, Z.shiftr_div_pow2 by lia.
  change (2 ^ 8) with 256.
  assert (Hb : 0 <= le_value (rev (le_bytes n (x / 256)))
               < 256 ^ Z.of_nat (length (rev (le_bytes n (x / 256))))).
  { apply le_value_bounds, Forall_rev, le_bytes_are_bytes. }
  rewrite length_rev, le_bytes_length in Hb.
  assert (Hp : 256 ^ Z.of_nat n = 2 ^ (8 * Z.of_nat n)).
  { change 256 with (2 ^ 8). rewrite <- Z.pow_mul_r by lia. reflexivity. }
  rewrite lor_disjoint by lia.
  cbn [le_value]. rewrite Hp. ring.
Qed.

Lemma bswap_fits n x : 0 <= bswap n x < 256 ^ Z.of_nat n.
Proof.
  rewrite bswap_rev.
  pose proof (le_value_bounds (rev (le_bytes n x))
                (Forall_rev (le_bytes_are_bytes n x))) as H.
  now rewrite length_rev, le_bytes_length in H.
Qed.

Lemma le_bytes_bswap n x :
  le_bytes n (bswap n x) = rev (le_bytes n x).
Proof.
  rewrite bswap_rev.
  pose proof (le_bytes_le_value (rev (le_bytes n x))
                (Forall_rev (le_bytes_are_bytes n x))) as H.
  now rewrite length_rev, le_bytes_length in H.
Qed.

Lemma bswap_involutive n x :
  0 <= x < 256 ^ Z.of_nat n -> bswap n (bswap n x) = x.
Proof.
  intros Hx.
  rewrite (bswap_rev n (bswap n x)), le_bytes_bswap, rev_involutive.
  now apply le_value_le_bytes.
Qed.

Example bswap32_example : builtin_bswap32 0x01020304 = 0x04030201.
Proof. reflexivity. Qed.

Example bswap16_example : builtin_bswap16 0xBEEF = 0xEFBE.
Proof. reflexivity. Qed.

Lemma byteSwap_integral T x :
  is_integral T = true ->
  byteSwap T x = bswap (sizeof T) x \/ (sizeof T = 1%nat /\ byteSwap T x = x).
Proof.
  intros HT. unfold byteSwap. rewrite HT.
  destruct T; cbn; auto; discriminate.
Qed.

Lemma byteSwap_not_integral T x : is_integral T = false -> byteSwap T x = x.
Proof. intros HT. unfold byteSwap. now rewrite HT. Qed.

Lemma byteSwap_reverses T x :
  is_integral T = true ->
  le_bytes (sizeof T) (byteSwap T x) = rev (le_bytes (sizeof T) x).
Proof.
  intros HT. destruct (byteSwap_integral T x HT) as [->|[H1 ->]].
  - apply le_bytes_bswap.
  - rewrite H1. reflexivity.
Qed.

Lemma byteSwap_fits T x : fits T x -> fits T (byteSwap T x).
Proof.
  intros Hx. destruct (is_integral T) eqn:HT.
  - destruct (byteSwap_integral T x HT) as [->|[_ ->]]; auto.
    apply bswap_fits.
  - now rewrite byteSwap_not_integral.
Qed.

Lemma byteSwap_involutive T x : fits T x -> byteSwap T (byteSwap T x) = x.
Proof.
  intros Hx.
  destruct T; try reflexivity;
    cbv [byteSwap is_integral sizeof builtin_bswap16 builtin_bswap32 builtin_bswap64];
    apply bswap_involutive; exact Hx.
Qed.

Section HostFacts.

Variable host : Endian.

Lemma host_repr_length n x : length (host_repr host n x) = n.
Proof.
  unfold host_repr. destruct host; rewrite ?length_rev; apply le_bytes_length.
Qed.

Lemma host_value_repr n x :
  0 <= x < 256 ^ Z.of_nat n -> host_value host (host_repr host n x) = x.
Proof.
  intros Hx. unfold host_value, host_repr.
  destruct host; rewrite ?rev_involutive; now apply le_value_le_bytes.
Qed.

Lemma isBigEndian_spec :
  isBigEndian host = match host with BigEndian => true | LittleEndian => false end.
Proof. unfold isBigEndian, host_repr. now destruct host. Qed.

Lemma shouldByteSwap_true T :
  shouldByteSwap host T = true ->
  host = BigEndian /\ is_integral T = true /\ (1 < sizeof T)%nat.
Proof.
  unfold shouldByteSwap. rewrite isBigEndian_spec.
  destruct (1 <? sizeof T)%nat eqn:Hs; cbn; [|discriminate].
  apply Nat.ltb_lt in Hs.
  destruct (is_integral T); [|discriminate].
  destruct host; [discriminate|auto].
Qed.

Lemma shouldByteSwap_little T : host = LittleEndian -> shouldByteSwap host T = false.
Proof.
  intros ->. unfold shouldByteSwap.
  now destruct ((1 <? sizeof T)%nat && is_integral T).
Qed.

Lemma shouldByteSwap_float T : is_integral T = false -> shouldByteSwap host T = false.
Proof.
  intros HT. unfold shouldByteSwap. rewrite HT, andb_false_r. reflexivity.
Qed.

Lemma shouldByteSwap_big T :
  host = BigEndian -> is_integral T = true -> (1 < sizeof T)%nat ->
  shouldByteSwap host T = true.
Proof.
  intros -> HT Hs. unfold shouldByteSwap.
  apply Nat.ltb_lt in Hs. now rewrite Hs, HT.
Qed.

Lemma copyPrimitive_fits T x : fits T x -> fits T (copyPrimitive host T x).
Proof.
  intros Hx. unfold copyPrimitive.
  destruct (shouldByteSwap host T); auto using byteSwap_fits.
Qed.

Lemma wire_arith_length T x : length (wire_arith host T x) = sizeof T.
Proof. apply host_repr_length. Qed.

(** Integral types: little-endian on the wire, whatever the host. *)
Lemma wire_arith_integral T x :
  is_integral T = true -> wire_arith host T x = le_bytes (sizeof T) x.
Proof.
  intros HT. unfold wire_arith, copyPrimitive.
  destruct (shouldByteSwap host T) eqn:Hs.
  - apply shouldByteSwap_true in Hs. destruct Hs as (Hh & _ & _).
    unfold host_repr. rewrite Hh, byteSwap_reverses by assumption.
    apply rev_involutive.
  - pose proof (shouldByteSwap_big T) as Hbig.
    unfold host_repr. destruct host; [reflexivity|].
    destruct (Nat.lt_ge_cases 1 (sizeof T)) as [Hlt|Hge].
    + rewrite Hbig in Hs by auto. discriminate.
    + assert (H1 : sizeof T = 1%nat) by (destruct T; cbn in *; lia).
      rewrite H1. reflexivity.
Qed.

(** Floating-point types: the object representation of the host. *)
Lemma wire_arith_float T x :
  is_integral T = false -> wire_arith host T x = host_repr host (sizeof T) x.
Proof.
  intros HT. unfold wire_arith, copyPrimitive.
  now rewrite shouldByteSwap_float.
Qed.

(** What [Read] makes of the bytes [Write] left. *)
Lemma copyPrimitive_wire_arith T x :
  fits T x -> copyPrimitive host T (host_value host (wire_arith host T x)) = x.
Proof.
  intros Hx. unfold wire_arith.
  rewrite host_value_repr by (apply copyPrimitive_fits, Hx).
  unfold copyPrimitive. destruct (shouldByteSwap host T); auto.
  now apply byteSwap_involutive.
Qed.

End HostFacts.

(** ** The monad and the buffer *)

Lemma bind_ok {A B} (m : M A) (k : A -> M B) pak a pak' :
  m pak = (Ok a, pak') -> bind m k pak = k a pak'.
Proof. intros H. unfold bind. now rewrite H. Qed.

Lemma splice_length pos data buf :
  (pos + length data <= length buf)%nat ->
  length (splice pos data buf) = length buf.
Proof.
  intros H. unfold splice.
  rewrite !length_app, length_firstn, length_skipn. lia.
Qed.

Lemma splice_nil pos buf : splice pos [] buf = buf.
Proof.
  unfold splice. cbn [length app]. rewrite Nat.add_0_r. apply firstn_skipn.
Qed.

Lemma splice_app pos a b buf :
  (pos + length a + length b <= length buf)%nat ->
  splice (pos + length a) b (splice pos a buf) = splice pos (a ++ b) buf.
Proof.
  intros H. unfold splice.
  assert (Hf : length (firstn pos buf) = pos) by (rewrite length_firstn; lia).
  rewrite (app_assoc (firstn pos buf) a).
  rewrite firstn_app.
  replace (pos + length a - length (firstn pos buf ++ a))%nat with 0%nat
    by (rewrite length_app; lia).
  rewrite firstn_all2 by (rewrite length_app; lia).
  cbn [firstn]. rewrite app_nil_r.
  rewrite skipn_app.
  rewrite skipn_all2 by (rewrite length_app; lia).
  cbn [app].
  replace (pos + length a + length b - length (firstn pos buf ++ a))%nat
    with (length b) by (rewrite length_app; lia).
  rewrite skipn_skipn, length_app.
  rewrite <- !app_assoc.
  do 3 f_equal. f_equal. lia.
Qed.

Lemma splice_fresh data : splice 0 data (repeat 0 (length data)) = data.
Proof.
  unfold splice. cbn [firstn app Nat.add].
  rewrite skipn_all2 by (rewrite repeat_length; lia).
  apply app_nil_r.
Qed.

Lemma store_ok pos data pak :
  (pos + length data <= length (bytes pak))%nat ->
  store pos data pak =
    (Ok tt, mkPak (splice pos data (bytes pak)) (reserveSize pak)
                  (writePosition pak) (readPosition pak)).
Proof.
  intros H. unfold store. destruct data as [|b data].
  - rewrite splice_nil. now destruct pak.
  - apply Nat.leb_le in H. now rewrite H.
Qed.

Lemma load_ok pos n pak :
  (pos + n <= length (bytes pak))%nat ->
  load pos n pak = (Ok (firstn n (skipn pos (bytes pak))), pak).
Proof.
  intros H. unfold load. destruct n; [reflexivity|].
  apply Nat.leb_le in H. now rewrite H.
Qed.

Lemma written_nil pak : written [] pak = pak.
Proof.
  unfold written. rewrite splice_nil. cbn [length]. rewrite Nat.add_0_r.
  now destruct pak.
Qed.

Lemma written_app a b pak :
  room (length a + length b) pak ->
  written b (written a pak) = written (a ++ b) pak.
Proof.
  unfold room, written. intros H. cbn [bytes writePosition reserveSize readPosition].
  rewrite splice_app by lia. rewrite length_app. f_equal. lia.
Qed.

Lemma room_written a n pak :
  room (length a + n) pak -> room n (written a pak).
Proof.
  unfold room, written. intros H. cbn [bytes writePosition].
  rewrite splice_length by lia. lia.
Qed.

Lemma room_le n m pak : (m <= n)%nat -> room n pak -> room m pak.
Proof. unfold room. lia. Qed.

Lemma reserved_0 pak : reserved 0 pak = pak.
Proof. unfold reserved. rewrite Nat.add_0_r. now destruct pak. Qed.

Lemma reserved_add a b pak : reserved b (reserved a pak) = reserved (a + b) pak.
Proof. unfold reserved. cbn. f_equal. lia. Qed.

Lemma consumed_0 pak : consumed 0 pak = pak.
Proof. unfold consumed. rewrite Nat.add_0_r. now destruct pak. Qed.

Lemma consumed_add a b pak : consumed b (consumed a pak) = consumed (a + b) pak.
Proof. unfold consumed. cbn. f_equal. lia. Qed.

Lemma unread_app a b pak :
  unread (a ++ b) pak -> unread a pak /\ unread b (consumed (length a) pak).
Proof.
  intros (post & Hs & Hle). split.
  - exists (b ++ post). split; [now rewrite <- app_assoc in Hs|assumption].
  - exists post. unfold consumed. cbn [readPosition bytes].
    assert (Hlen : length (skipn (readPosition pak) (bytes pak))
                   = length ((a ++ b) ++ post)) by now rewrite Hs.
    rewrite length_skipn, !length_app in Hlen.
    split; [|lia].
    rewrite Nat.add_comm, <- skipn_skipn, Hs, <- app_assoc.
    rewrite skipn_app, Nat.sub_diag, skipn_all. reflexivity.
Qed.

Lemma unread_load data pak :
  unread data pak ->
  load (readPosition pak) (length data) pak = (Ok data, pak).
Proof.
  intros (post & Hs & Hle).
  assert (Hlen : length (skipn (readPosition pak) (bytes pak))
                 = length (data ++ post)) by now rewrite Hs.
  rewrite length_skipn, length_app in Hlen.
  rewrite load_ok by lia.
  rewrite Hs, firstn_app, Nat.sub_diag, firstn_all. cbn [firstn].
  now rewrite app_nil_r.
Qed.

(** ** One arithmetic value *)

Section ArithFacts.

Variable host : Endian.
Variable key_comp : Value -> Value -> bool.

Lemma host_repr_bytes n x : Forall is_byte (host_repr host n x).
Proof.
  unfold host_repr. destruct host; [|apply Forall_rev]; apply le_bytes_are_bytes.
Qed.

Lemma host_value_fits T c :
  length c = sizeof T -> Forall is_byte c -> fits T (host_value host c).
Proof.
  intros Hlen Hc. unfold fits, host_value. rewrite <- Hlen.
  destruct host.
  - now apply le_value_bounds.
  - rewrite <- length_rev. apply le_value_bounds. now apply Forall_rev.
Qed.

Lemma parse_arith_Reserve cq T x pak :
  parse_arith host Reserve cq T x pak = (Ok x, reserved (sizeof T) pak).
Proof. reflexivity. Qed.

Lemma parse_arith_Write cq T x pak :
  room (sizeof T) pak ->
  parse_arith host Write cq T x pak = (Ok x, written (wire_arith host T x) pak).
Proof.
  intros Hroom. unfold parse_arith.
  rewrite (bind_ok _ _ pak (writePosition pak) pak) by reflexivity.
  fold (wire_arith host T x).
  erewrite bind_ok; [|apply store_ok; rewrite wire_arith_length; exact Hroom].
  erewrite bind_ok by reflexivity.
  unfold ret, written. cbn [bytes reserveSize writePosition readPosition].
  now rewrite wire_arith_length.
Qed.

(** Reading [sizeof T] bytes that lie inside the buffer. *)
Lemma parse_arith_Read T y pak :
  (readPosition pak + sizeof T <= length (bytes pak))%nat ->
  parse_arith host Read false T y pak =
    (Ok (copyPrimitive host T
           (host_value host (firstn (sizeof T) (skipn (readPosition pak) (bytes pak))))),
     consumed (sizeof T) pak).
Proof.
  intros Hin. unfold parse_arith.
  rewrite (bind_ok _ _ pak (readPosition pak) pak) by reflexivity.
  erewrite bind_ok by (apply load_ok; exact Hin).
  erewrite bind_ok by reflexivity.
  reflexivity.
Qed.

Lemma parse_arith_Read_wire T x y pak :
  fits T x -> unread (wire_arith host T x) pak ->
  parse_arith host Read false T y pak = (Ok x, consumed (sizeof T) pak).
Proof.
  intros Hx Hun.
  pose proof (unread_load _ _ Hun) as Hload.
  rewrite wire_arith_length in Hload.
  unfold parse_arith.
  rewrite (bind_ok _ _ pak (readPosition pak) pak) by reflexivity.
  erewrite bind_ok by exact Hload.
  erewrite bind_ok by reflexivity.
  unfold ret. now rewrite copyPrimitive_wire_arith.
Qed.

Lemma parse_TArith_Reserve cq T x pak :
  parse host key_comp Reserve cq (TArith T) (VArith x) pak
  = (Ok (VArith x), reserved (sizeof T) pak).
Proof. reflexivity. Qed.

Lemma parse_TArith_Write cq T x pak :
  room (sizeof T) pak ->
  parse host key_comp Write cq (TArith T) (VArith x) pak
  = (Ok (VArith x), written (wire_arith host T x) pak).
Proof.
  intros Hroom. cbn [parse].
  erewrite bind_ok by (apply parse_arith_Write; exact Hroom).
  reflexivity.
Qed.

Lemma parse_TArith_Read T y pak :
  (readPosition pak + sizeof T <= length (bytes pak))%nat ->
  parse host key_comp Read false (TArith T) (VArith y) pak =
    (Ok (VArith (copyPrimitive host T
           (host_value host (firstn (sizeof T) (skipn (readPosition pak) (bytes pak)))))),
     consumed (sizeof T) pak).
Proof.
  intros Hin. cbn [parse].
  erewrite bind_ok by (apply parse_arith_Read; exact Hin).
  reflexivity.
Qed.

(** The count of a container, as [read<std::uint32_t>()] finds it. *)
Lemma read_uint32_count n pak :
  unread (le_bytes 4 (uint32_of_size n)) pak ->
  read_uint32 host pak = (Ok (uint32_of_size n), consumed 4 pak).
Proof.
  intros Hun. unfold read_uint32.
  apply (parse_arith_Read_wire UInt32 (uint32_of_size n)).
  - unfold fits, uint32_of_size. cbn [sizeof].
    change (256 ^ Z.of_nat 4) with (2 ^ 32). apply Z.mod_pos_bound. lia.
  - now rewrite wire_arith_integral.
Qed.

End ArithFacts.

(** ** The contiguous range path against the iterator pair path *)

Lemma chunks_length n c : forall l, length (chunks n c l) = c.
Proof. induction c; intros; cbn [chunks length]; auto. Qed.

Lemma chunks_firstn n c : forall l, chunks n c (firstn (c * n) l) = chunks n c l.
Proof.
  induction c as [|c IH]; intros l; [reflexivity|].
  cbn [chunks Nat.mul].
  rewrite firstn_firstn, Nat.min_l by lia.
  rewrite skipn_firstn_comm.
  replace (n + c * n - n)%nat with (c * n)%nat by lia.
  now rewrite IH.
Qed.

Lemma chunks_lengths n c : forall l,
  (c * n <= length l)%nat -> Forall (fun x => length x = n) (chunks n c l).
Proof.
  induction c as [|c IH]; intros l Hl; cbn [chunks]; constructor.
  - rewrite length_firstn. cbn [Nat.mul] in Hl. lia.
  - apply IH. rewrite length_skipn. cbn [Nat.mul] in Hl. lia.
Qed.

Lemma Forall_firstn {A} (P : A -> Prop) n : forall l, Forall P l -> Forall P (firstn n l).
Proof.
  induction n; intros l Hl; cbn [firstn]; [constructor|].
  destruct Hl; constructor; auto.
Qed.

Lemma Forall_skipn {A} (P : A -> Prop) n : forall l, Forall P l -> Forall P (skipn n l).
Proof.
  induction n; intros l Hl; cbn [skipn]; [assumption|].
  destruct Hl; auto.
Qed.

Lemma chunks_Forall (P : Z -> Prop) n c : forall l,
  Forall P l -> Forall (Forall P) (chunks n c l).
Proof.
  induction c as [|c IH]; intros l Hl; cbn [chunks]; constructor.
  - now apply Forall_firstn.
  - apply IH. now apply Forall_skipn.
Qed.

Lemma concat_length_uniform {A} n (ls : list (list A)) :
  Forall (fun c => length c = n) ls -> length (concat ls) = (length ls * n)%nat.
Proof.
  induction 1 as [|c ls Hc _ IH]; [reflexivity|].
  cbn [concat length Nat.mul]. rewrite length_app. lia.
Qed.

Lemma all_bits_map xs : all_bits (map VArith xs) = Some xs.
Proof. induction xs as [|x xs IH]; cbn [map all_bits]; [|rewrite IH]; reflexivity. Qed.

Lemma sizeof_pos T : (0 < sizeof T)%nat.
Proof. destruct T; cbn; lia. Qed.

Section Contiguous.

Variable host : Endian.
Variable key_comp : Value -> Value -> bool.

Lemma arith_elems T elems :
  Forall (has_type key_comp (TArith T)) elems ->
  exists xs, elems = map VArith xs /\ Forall (fits T) xs.
Proof.
  induction 1 as [|v elems Hv _ (xs & -> & Hxs)].
  - now exists [].
  - destruct v; cbn in Hv; try contradiction.
    exists (bits :: xs). split; [reflexivity|now constructor].
Qed.

(** After the [memcpy] and the swap loop the buffer holds what the
    element-wise [copyPrimitive] would have left. *)
Lemma copyPrimitiveArray_wire T xs :
  Forall (fits T) xs ->
  copyPrimitiveArray host T (concat (map (host_repr host (sizeof T)) xs))
  = concat (map (wire_arith host T) xs).
Proof.
  intros Hxs. unfold copyPrimitiveArray.
  assert (Hu : Forall (fun c => length c = sizeof T)
                 (map (host_repr host (sizeof T)) xs)).
  { apply Forall_map, Forall_forall. intros x _. apply host_repr_length. }
  pose proof (concat_length_uniform _ _ Hu) as Hlen.
  rewrite length_map in Hlen. rewrite Hlen.
  destruct xs as [|x0 xs0]; [reflexivity|].
  set (xs := x0 :: xs0) in *.
  replace (0 <? length xs * sizeof T)%nat with true
    by (symmetry; apply Nat.ltb_lt; pose proof (sizeof_pos T); cbn [xs length]; lia).
  destruct (shouldByteSwap host T) eqn:Hs.
  - rewrite Nat.div_mul by (pose proof (sizeof_pos T); lia).
    rewrite <- (length_map (host_repr host (sizeof T)) xs), chunks_concat by exact Hu.
    rewrite map_map. f_equal. apply map_ext_in. intros x Hx.
    rewrite host_value_repr by (eapply Forall_forall in Hxs; [exact Hxs|exact Hx]).
    unfold wire_arith, copyPrimitive. now rewrite Hs.
  - f_equal. apply map_ext. intros x.
    unfold wire_arith, copyPrimitive. now rewrite Hs.
Qed.

(** The same for the bytes [Read] takes from the buffer. *)
Lemma copyPrimitiveArray_chunks T count src :
  length src = (count * sizeof T)%nat -> Forall is_byte src ->
  map (host_value host) (chunks (sizeof T) count (copyPrimitiveArray host T src))
  = map (fun c => copyPrimitive host T (host_value host c))
        (chunks (sizeof T) count src).
Proof.
  intros Hlen Hsrc. unfold copyPrimitiveArray. rewrite Hlen.
  destruct count as [|count']; [reflexivity|].
  set (count := S count') in *.
  replace (0 <? count * sizeof T)%nat with true
    by (symmetry; apply Nat.ltb_lt; pose proof (sizeof_pos T); cbn [count Nat.mul]; lia).
  destruct (shouldByteSwap host T) eqn:Hs.
  - rewrite Nat.div_mul by (pose proof (sizeof_pos T); lia).
    set (cs := chunks (sizeof T) count src).
    assert (Hcs : length cs = count) by apply chunks_length.
    rewrite <- Hcs at 1.
    rewrite <- (length_map (fun current =>
                  host_repr host (sizeof T) (byteSwap T (host_value host current))) cs).
    rewrite chunks_concat
      by (apply Forall_map, Forall_forall; intros c _; apply host_repr_length).
    rewrite map_map. apply map_ext_in. intros c Hc.
    assert (Hfit : fits T (host_value host c)).
    { apply host_value_fits.
      - pose proof (chunks_lengths (sizeof T) count src) as Hl.
        rewrite Forall_forall in Hl. apply Hl; [lia|exact Hc].
      - pose proof (chunks_Forall is_byte (sizeof T) count src Hsrc) as Hb.
        rewrite Forall_forall in Hb. now apply Hb. }
    rewrite host_value_repr by (apply byteSwap_fits, Hfit).
    unfold copyPrimitive. now rewrite Hs.
  - apply map_ext. intros c. unfold copyPrimitive. now rewrite Hs.
Qed.

(** The iterator pair path over arithmetic elements, pass by pass. *)
Lemma generic_Reserve cq T xs : forall pak,
  for_each (parse host key_comp Reserve cq (TArith T)) (map VArith xs) pak
  = (Ok (map VArith xs), reserved (length xs * sizeof T) pak).
Proof.
  induction xs as [|x xs IH]; intros pak.
  - cbn. now rewrite reserved_0.
  - cbn [map for_each length Nat.mul].
    erewrite bind_ok by apply parse_TArith_Reserve.
    erewrite bind_ok by apply IH.
    unfold ret. now rewrite reserved_add.
Qed.

Lemma generic_Write cq T xs : forall pak,
  room (length xs * sizeof T) pak ->
  for_each (parse host key_comp Write cq (TArith T)) (map VArith xs) pak
  = (Ok (map VArith xs), written (concat (map (wire_arith host T) xs)) pak).
Proof.
  induction xs as [|x xs IH]; intros pak Hroom.
  - cbn. now rewrite written_nil.
  - cbn [map for_each length Nat.mul concat] in *.
    erewrite bind_ok
      by (apply parse_TArith_Write; eapply room_le; [|exact Hroom]; lia).
    assert (Hlen : length (concat (map (wire_arith host T) xs))
                   = (length xs * sizeof T)%nat).
    { rewrite (concat_length_uniform (sizeof T)), length_map; [reflexivity|].
      apply Forall_map, Forall_forall. intros y _. apply wire_arith_length. }
    erewrite bind_ok
      by (apply IH, room_written; now rewrite wire_arith_length).
    unfold ret. rewrite written_app; [reflexivity|].
    now rewrite wire_arith_length, Hlen.
Qed.

Lemma generic_Read T ys : forall pak,
  (readPosition pak + length ys * sizeof T <= length (bytes pak))%nat ->
  for_each (parse host key_comp Read false (TArith T)) (map VArith ys) pak
  = (Ok (map (fun c => VArith (copyPrimitive host T (host_value host c)))
             (chunks (sizeof T) (length ys) (skipn (readPosition pak) (bytes pak)))),
     consumed (length ys * sizeof T) pak).
Proof.
  induction ys as [|y ys IH]; intros pak Hin.
  - cbn. now rewrite consumed_0.
  - cbn [map for_each length Nat.mul chunks] in *.
    erewrite bind_ok by (apply parse_TArith_Read; lia).
    erewrite bind_ok by (apply IH; cbn [consumed readPosition bytes]; lia).
    unfold ret. rewrite consumed_add.
    cbn [consumed readPosition bytes].
    now rewrite skipn_skipn, (Nat.add_comm (sizeof T) (readPosition pak)).
Qed.

(** The contiguous overloads compute the same, pass by pass. *)
Lemma contiguous_Reserve T c xs pak :
  parse_contiguous host Reserve T c (map VArith xs) pak
  = (Ok (map VArith xs), reserved (length xs * sizeof T) pak).
Proof. unfold parse_contiguous. now rewrite all_bits_map. Qed.

Lemma contiguous_Write T xs pak :
  Forall (fits T) xs -> room (length xs * sizeof T) pak ->
  parse_contiguous host Write T false (map VArith xs) pak
  = (Ok (map VArith xs), written (concat (map (wire_arith host T) xs)) pak).
Proof.
  intros Hxs Hroom. unfold parse_contiguous. rewrite all_bits_map.
  rewrite copyPrimitiveArray_wire by exact Hxs.
  assert (Hlen : length (concat (map (wire_arith host T) xs))
                 = (length xs * sizeof T)%nat).
  { rewrite (concat_length_uniform (sizeof T)), length_map; [reflexivity|].
    apply Forall_map, Forall_forall. intros y _. apply wire_arith_length. }
  rewrite (bind_ok _ _ pak (writePosition pak) pak) by reflexivity.
  erewrite bind_ok by (apply store_ok; rewrite Hlen; exact Hroom).
  erewrite bind_ok by reflexivity.
  unfold ret, written. cbn [bytes reserveSize writePosition readPosition].
  now rewrite Hlen.
Qed.

Lemma contiguous_Read T ys pak :
  (readPosition pak + length ys * sizeof T <= length (bytes pak))%nat ->
  Forall is_byte (firstn (length ys * sizeof T)
                         (skipn (readPosition pak) (bytes pak))) ->
  parse_contiguous host Read T false (map VArith ys) pak
  = (Ok (map (fun c => VArith (copyPrimitive host T (host_value host c)))
             (chunks (sizeof T) (length ys) (skipn (readPosition pak) (bytes pak)))),
     consumed (length ys * sizeof T) pak).
Proof.
  intros Hin Hb. unfold parse_contiguous. rewrite all_bits_map.
  rewrite (bind_ok _ _ pak (readPosition pak) pak) by reflexivity.
  erewrite bind_ok by (apply load_ok; exact Hin).
  erewrite bind_ok by reflexivity.
  unfold ret. f_equal. f_equal.
  rewrite <- (map_map (host_value host) VArith).
  rewrite copyPrimitiveArray_chunks; [|rewrite length_firstn, length_skipn; lia|exact Hb].
  rewrite chunks_firstn, map_map. reflexivity.
Qed.

End Contiguous.

(** ** Loops *)

Lemma for_each_Reserve {A} (f : A -> M A) (w : A -> list Z) l :
  (forall x, In x l -> forall pak, f x pak = (Ok x, reserved (length (w x)) pak)) ->
  forall pak,
    for_each f l pak = (Ok l, reserved (length (concat (map w l))) pak).
Proof.
  induction l as [|x l IH]; intros Hf pak.
  - cbn. now rewrite reserved_0.
  - cbn [for_each map concat].
    erewrite bind_ok by (apply Hf; now left).
    erewrite bind_ok by (apply IH; intros; apply Hf; now right).
    unfold ret. now rewrite reserved_add, length_app.
Qed.

Lemma for_each_Write {A} (f : A -> M A) (w : A -> list Z) l :
  (forall x, In x l -> forall pak,
      room (length (w x)) pak -> f x pak = (Ok x, written (w x) pak)) ->
  forall pak,
    room (length (concat (map w l))) pak ->
    for_each f l pak = (Ok l, written (concat (map w l)) pak).
Proof.
  induction l as [|x l IH]; intros Hf pak Hroom.
  - cbn. now rewrite written_nil.
  - cbn [for_each map concat] in *. rewrite length_app in Hroom.
    erewrite bind_ok
      by (apply Hf; [now left|eapply room_le; [|exact Hroom]; lia]).
    erewrite bind_ok
      by (apply IH; [intros; apply Hf; [now right|assumption]
                    |now apply room_written]).
    unfold ret. now rewrite written_app.
Qed.

Lemma for_each_Read {A} (f : A -> M A) (w : A -> list Z) (Pd : A -> Prop) vs :
  (forall v, In v vs -> forall d pak,
      Pd d -> unread (w v) pak -> f d pak = (Ok v, consumed (length (w v)) pak)) ->
  forall dsts pak,
    length dsts = length vs -> Forall Pd dsts ->
    unread (concat (map w vs)) pak ->
    for_each f dsts pak = (Ok vs, consumed (length (concat (map w vs))) pak).
Proof.
  induction vs as [|v vs IH]; intros Hf dsts pak Hlen Hd Hun.
  - destruct dsts; [|discriminate]. cbn. now rewrite consumed_0.
  - destruct dsts as [|d dsts]; [discriminate|].
    cbn [for_each map concat] in *.
    apply unread_app in Hun. destruct Hun as [Hv Hrest].
    inversion Hd; subst.
    erewrite bind_ok by (apply Hf; [now left|eassumption|exact Hv]).
    erewrite bind_ok
      by (apply IH; [intros; apply Hf; [now right|assumption|assumption]
                    |injection Hlen; auto|assumption|exact Hrest]).
    unfold ret. now rewrite consumed_add, length_app.
Qed.

(** ** The field lists of user-defined types *)

Section Fields.

Variable host : Endian.
Variable key_comp : Value -> Value -> bool.

(** [t.serialize(op)] runs the variadic evaluation over the fields. *)
Lemma parse_TUser op cq hook fields vals pak :
  parse host key_comp op cq (TUser hook fields) (VUser vals) pak =
  (if cq && is_Read op then fail ConstViolation
   else (vals' <- parse_args host key_comp op fields vals ;; ret (VUser vals'))) pak.
Proof.
  cbn [parse]. destruct (cq && is_Read op); [reflexivity|].
  unfold bind at 1 3.
  match goal with
  | |- match ?F fields vals pak with _ => _ end = _ =>
      assert (H : forall Ts vs p, F Ts vs p = parse_args host key_comp op Ts vs p)
  end.
  { induction Ts as [|T Ts IH]; intros [|v vs] p; try reflexivity.
    cbn [parse_args]. unfold bind.
    destruct (parse host key_comp op false T v p) as [[a|e] p']; [|reflexivity].
    now rewrite IH. }
  now rewrite H.
Qed.

Lemma wire_TUser hook fields vals :
  wire host (TUser hook fields) (VUser vals) = wire_args host fields vals.
Proof. reflexivity. Qed.

Lemma has_type_TUser hook fields vals :
  has_type key_comp (TUser hook fields) (VUser vals) <-> have_types key_comp fields vals.
Proof. reflexivity. Qed.

End Fields.

(** ** The [Reserve] pass counts the bytes of the wire format *)

Lemma contiguous_unqualified lvalue cat E A :
  enable_if_contiguous_range lvalue cat E = Some (A, false) -> E = TArith A.
Proof.
  unfold enable_if_contiguous_range, arithmetic_value_type.
  destruct lvalue; [discriminate|].
  destruct cat; [|discriminate].
  destruct E as [A'|T'| | | | | | ]; try discriminate.
  - now intros [= ->].
  - destruct T'; discriminate.
Qed.

Section ReservePass.

Variable host : Endian.
Variable key_comp : Value -> Value -> bool.

Lemma wire_arith_elems_length T xs :
  length (concat (map (wire host (TArith T)) (map VArith xs)))
  = (length xs * sizeof T)%nat.
Proof.
  rewrite map_map. cbn [wire].
  rewrite (concat_length_uniform (sizeof T)), length_map; [reflexivity|].
  apply Forall_map, Forall_forall. intros y _. apply wire_arith_length.
Qed.

Lemma parse_range_Reserve lvalue cat cq E elems pak :
  match enable_if_contiguous_range lvalue cat E with
  | Some (_, const_elems) => negb (cq || const_elems)
  | None => traversable cq E
  end = true ->
  Reserve_spec host key_comp E ->
  Forall (has_type key_comp E) elems ->
  parse_range host Reserve lvalue cat cq E (parse host key_comp Reserve cq E) elems pak
  = (Ok elems, reserved (length (concat (map (wire host E) elems))) pak).
Proof.
  unfold parse_range.
  destruct (enable_if_contiguous_range lvalue cat E) as [[A c]|] eqn:He;
    intros Htrav IH Hall.
  - destruct cq; [discriminate|]. destruct c; [discriminate|].
    apply contiguous_unqualified in He. subst E.
    destruct (arith_elems key_comp _ _ Hall) as (xs & -> & _).
    now rewrite contiguous_Reserve, wire_arith_elems_length.
  - apply for_each_Reserve. intros x Hx pak'. apply IH; [assumption|].
    rewrite Forall_forall in Hall. now apply Hall.
Qed.

Lemma parse_args_Reserve Ts : 
  Forall (Reserve_spec host key_comp) Ts ->
  forall args pak,
    forallb (traversable false) Ts = true -> have_types key_comp Ts args ->
    parse_args host key_comp Reserve Ts args pak
    = (Ok args, reserved (length (wire_args host Ts args)) pak).
Proof.
  induction 1 as [|T Ts HT _ IH]; intros [|v args] pak Htrav Hty;
    try contradiction.
  - cbn. now rewrite reserved_0.
  - cbn [forallb] in Htrav. apply andb_prop in Htrav. destruct Htrav as [HtT HtTs].
    destruct Hty as [Hv Hargs].
    cbn [parse_args wire_args].
    erewrite bind_ok by (apply HT; assumption).
    erewrite bind_ok by (apply IH; assumption).
    unfold ret. now rewrite reserved_add, length_app.
Qed.

Lemma count_Reserve n pak :
  parse_arith host Reserve false UInt32 n pak = (Ok n, reserved 4 pak).
Proof. reflexivity. Qed.

Lemma Reserve_correct T : Reserve_spec host key_comp T.
Proof.
  induction T as [A|T IH|N E IH|A B IHA IHB|N E IH|cat E IH|K V IHK IHV|hook fields IH]
    using Ty_induction; intros cq v pak Htrav Hty.
  - destruct v; try contradiction. cbn [wire]. now rewrite wire_arith_length.
  - cbn [parse wire]. apply IH; assumption.
  - destruct v as [| |elems| | |]; try contradiction. destruct Hty as [_ Hall].
    cbn [parse wire traversable] in *.
    erewrite bind_ok by (apply parse_range_Reserve; assumption).
    reflexivity.
  - destruct v as [|a b| | | |]; try contradiction. destruct Hty as [Ha Hb].
    cbn [traversable] in Htrav.
    destruct cq; [discriminate|]. cbn [negb andb] in Htrav.
    apply andb_prop in Htrav. destruct Htrav as [HtA HtB].
    cbn [parse wire].
    erewrite bind_ok by (apply IHA; assumption).
    erewrite bind_ok by (apply IHB; assumption).
    unfold ret. now rewrite reserved_add, length_app.
  - destruct v as [| |elems| | |]; try contradiction. destruct Hty as [_ Hall].
    cbn [traversable] in Htrav.
    destruct cq; [discriminate|]. cbn [negb andb] in Htrav.
    cbn [parse wire].
    erewrite bind_ok by (apply parse_range_Reserve; assumption).
    reflexivity.
  - destruct v as [| | |elems| |]; try contradiction. cbn [has_type] in Hty.
    cbn [traversable] in Htrav.
    cbn [parse wire].
    erewrite bind_ok by apply count_Reserve.
    erewrite bind_ok by (apply parse_range_Reserve; assumption).
    unfold ret. now rewrite reserved_add, length_app, le_bytes_length.
  - destruct v as [| | | |entries|]; try contradiction. destruct Hty as [Hall _].
    cbn [traversable] in Htrav.
    destruct cq; [discriminate|]. cbn [negb andb] in Htrav.
    apply andb_prop in Htrav. destruct Htrav as [HtK HtV].
    cbn [parse wire].
    erewrite bind_ok by apply count_Reserve.
    erewrite bind_ok.
    2:{ apply (for_each_Reserve _
                 (fun e => wire host K (fst e) ++ wire host V (snd e))).
        intros e He pak'. rewrite Forall_forall in Hall.
        destruct (Hall e He) as [Hk Hv].
        erewrite bind_ok by (apply IHK; assumption).
        erewrite bind_ok by (apply IHV; assumption).
        unfold ret. rewrite reserved_add, length_app. now destruct e. }
    unfold ret. now rewrite reserved_add, length_app, le_bytes_length.
  - destruct v as [| | | | |vals]; try contradiction.
    apply has_type_TUser in Hty. cbn [traversable] in Htrav.
    rewrite parse_TUser, wire_TUser.
    rewrite andb_false_r.
    erewrite bind_ok by (apply parse_args_Reserve; assumption).
    reflexivity.
Qed.

End ReservePass.

(** ** The [Write] pass stores the wire format at the write cursor *)

Section WritePass.

Variable host : Endian.
Variable key_comp : Value -> Value -> bool.

Lemma wire_arith_elems T xs :
  concat (map (wire host (TArith T)) (map VArith xs))
  = concat (map (wire_arith host T) xs).
Proof. now rewrite map_map. Qed.

Lemma parse_range_Write lvalue cat cq E elems pak :
  match enable_if_contiguous_range lvalue cat E with
  | Some (_, const_elems) => negb (cq || const_elems)
  | None => traversable cq E
  end = true ->
  Write_spec host key_comp E ->
  Forall (has_type key_comp E) elems ->
  room (length (concat (map (wire host E) elems))) pak ->
  parse_range host Write lvalue cat cq E (parse host key_comp Write cq E) elems pak
  = (Ok elems, written (concat (map (wire host E) elems)) pak).
Proof.
  unfold parse_range.
  destruct (enable_if_contiguous_range lvalue cat E) as [[A c]|] eqn:He;
    intros Htrav IH Hall Hroom.
  - destruct cq; [discriminate|]. destruct c; [discriminate|].
    apply contiguous_unqualified in He. subst E.
    destruct (arith_elems key_comp _ _ Hall) as (xs & -> & Hxs).
    rewrite (wire_arith_elems_length host) in Hroom.
    now rewrite contiguous_Write, wire_arith_elems.
  - apply for_each_Write; [|assumption]. intros x Hx pak' Hroom'.
    apply IH; [assumption| |assumption].
    rewrite Forall_forall in Hall. now apply Hall.
Qed.

Lemma parse_args_Write Ts :
  Forall (Write_spec host key_comp) Ts ->
  forall args pak,
    forallb (traversable false) Ts = true -> have_types key_comp Ts args ->
    room (length (wire_args host Ts args)) pak ->
    parse_args host key_comp Write Ts args pak
    = (Ok args, written (wire_args host Ts args) pak).
Proof.
  induction 1 as [|T Ts HT _ IH]; intros [|v args] pak Htrav Hty Hroom;
    try contradiction.
  - cbn. now rewrite written_nil.
  - cbn [forallb] in Htrav. apply andb_prop in Htrav. destruct Htrav as [HtT HtTs].
    destruct Hty as [Hv Hargs].
    cbn [parse_args wire_args] in *. rewrite length_app in Hroom.
    erewrite bind_ok
      by (apply HT; [assumption|assumption|eapply room_le; [|exact Hroom]; lia]).
    erewrite bind_ok
      by (apply IH; [assumption|assumption|now apply room_written]).
    unfold ret. now rewrite written_app.
Qed.

Lemma count_Write n pak :
  room 4 pak ->
  parse_arith host Write false UInt32 n pak = (Ok n, written (le_bytes 4 n) pak).
Proof.
  intros Hroom.
  rewrite parse_arith_Write by exact Hroom.
  now rewrite wire_arith_integral.
Qed.

Lemma Write_correct T : Write_spec host key_comp T.
Proof.
  induction T as [A|T IH|N E IH|A B IHA IHB|N E IH|cat E IH|K V IHK IHV|hook fields IH]
    using Ty_induction; intros cq v pak Htrav Hty Hroom.
  - destruct v; try contradiction. cbn [wire] in *.
    rewrite wire_arith_length in Hroom.
    now apply parse_TArith_Write.
  - cbn [parse wire]. apply IH; assumption.
  - destruct v as [| |elems| | |]; try contradiction. destruct Hty as [_ Hall].
    cbn [parse wire traversable] in *.
    erewrite bind_ok by (apply parse_range_Write; assumption).
    reflexivity.
  - destruct v as [|a b| | | |]; try contradiction. destruct Hty as [Ha Hb].
    cbn [traversable] in Htrav.
    destruct cq; [discriminate|]. cbn [negb andb] in Htrav.
    apply andb_prop in Htrav. destruct Htrav as [HtA HtB].
    cbn [parse wire] in *. rewrite length_app in Hroom.
    erewrite bind_ok
      by (apply IHA; [assumption|assumption|eapply room_le; [|exact Hroom]; lia]).
    erewrite bind_ok
      by (apply IHB; [assumption|assumption|now apply room_written]).
    unfold ret. now rewrite written_app.
  - destruct v as [| |elems| | |]; try contradiction. destruct Hty as [_ Hall].
    cbn [traversable] in Htrav.
    destruct cq; [discriminate|]. cbn [negb andb] in Htrav.
    cbn [parse wire] in *.
    erewrite bind_ok by (apply parse_range_Write; assumption).
    reflexivity.
  - destruct v as [| | |elems| |]; try contradiction. cbn [has_type] in Hty.
    cbn [traversable] in Htrav.
    cbn [parse wire] in *. rewrite length_app, le_bytes_length in Hroom.
    erewrite bind_ok by (apply count_Write; eapply room_le; [|exact Hroom]; lia).
    erewrite bind_ok
      by (apply parse_range_Write; try assumption;
          apply room_written; now rewrite le_bytes_length).
    unfold ret. rewrite written_app; [reflexivity|].
    now rewrite le_bytes_length.
  - destruct v as [| | | |entries|]; try contradiction. destruct Hty as [Hall _].
    cbn [traversable] in Htrav.
    destruct cq; [discriminate|]. cbn [negb andb] in Htrav.
    apply andb_prop in Htrav. destruct Htrav as [HtK HtV].
    cbn [parse wire] in *. rewrite length_app, le_bytes_length in Hroom.
    erewrite bind_ok by (apply count_Write; eapply room_le; [|exact Hroom]; lia).
    erewrite bind_ok.
    2:{ apply (for_each_Write _
                 (fun e => wire host K (fst e) ++ wire host V (snd e))).
        - intros e He pak' Hroom'. rewrite Forall_forall in Hall.
          destruct (Hall e He) as [Hk Hv]. rewrite length_app in Hroom'.
          erewrite bind_ok
            by (apply IHK; [assumption|assumption
                           |eapply room_le; [|exact Hroom']; lia]).
          erewrite bind_ok
            by (apply IHV; [assumption|assumption|now apply room_written]).
          unfold ret. rewrite written_app by assumption. now destruct e.
        - apply room_written. now rewrite le_bytes_length. }
    unfold ret. rewrite written_app; [reflexivity|].
    now rewrite le_bytes_length.
  - destruct v as [| | | | |vals]; try contradiction.
    apply has_type_TUser in Hty. cbn [traversable] in Htrav.
    rewrite parse_TUser. rewrite wire_TUser in *.
    rewrite andb_false_r.
    erewrite bind_ok by (apply parse_args_Write; assumption).
    reflexivity.
Qed.

End WritePass.

(** ** The [Read] pass recovers what the [Write] pass stored *)

Lemma unqualified_remove_const T : unqualified T = true -> remove_const T = T.
Proof. destruct T; [reflexivity|discriminate|reflexivity..]. Qed.

Lemma contiguous_of_unqualified lvalue cat E A c :
  unqualified E = true ->
  enable_if_contiguous_range lvalue cat E = Some (A, c) ->
  E = TArith A /\ c = false.
Proof.
  unfold enable_if_contiguous_range, arithmetic_value_type.
  destruct lvalue; [discriminate|].
  destruct cat; [|discriminate].
  destruct E; try discriminate.
  now intros _ [= -> <-].
Qed.

Lemma resize_length n E l : length (resize n E l) = n.
Proof.
  unfold resize. rewrite length_app, length_firstn, repeat_length. lia.
Qed.

Section ReadPass.

Variable host : Endian.
Variable key_comp : Value -> Value -> bool.

Lemma default_has_type T : has_type key_comp T (default T).
Proof.
  induction T as [A|T IH|N E IH|A B IHA IHB|N E IH|cat E IH|K V IHK IHV|hook fields IH]
    using Ty_induction; cbn [default has_type]; auto.
  - unfold fits. split; [lia|]. apply Z.pow_pos_nonneg; lia.
  - split; [apply repeat_length|]. apply Forall_forall.
    intros x Hx. apply repeat_spec in Hx. now subst.
  - split; [apply repeat_length|]. apply Forall_forall.
    intros x Hx. apply repeat_spec in Hx. now subst.
  - split; constructor.
  - induction IH as [|T Ts HT _ IHTs]; cbn [map]; auto.
Qed.

Lemma resize_has_type n E l :
  Forall (has_type key_comp E) l -> Forall (has_type key_comp E) (resize n E l).
Proof.
  intros Hl. unfold resize. apply Forall_app. split.
  - now apply Forall_firstn.
  - apply Forall_forall. intros x Hx. apply repeat_spec in Hx. subst.
    apply default_has_type.
Qed.

Lemma wire_arith_elems_bytes T xs :
  Forall is_byte (concat (map (wire_arith host T) xs)).
Proof.
  apply Forall_concat, Forall_map, Forall_forall.
  intros x _. apply host_repr_bytes.
Qed.

(** On a buffer of bytes, and inside it, the contiguous overload of the
    [Read] pass and the iterator pair overload agree. *)
Lemma contiguous_Read_generic T ys pak :
  (readPosition pak + length ys * sizeof T <= length (bytes pak))%nat ->
  Forall is_byte (firstn (length ys * sizeof T)
                         (skipn (readPosition pak) (bytes pak))) ->
  parse_contiguous host Read T false (map VArith ys) pak
  = for_each (parse host key_comp Read false (TArith T)) (map VArith ys) pak.
Proof.
  intros Hin Hb. now rewrite contiguous_Read, (generic_Read host key_comp).
Qed.

Lemma unread_firstn data pak :
  unread data pak ->
  firstn (length data) (skipn (readPosition pak) (bytes pak)) = data
  /\ (readPosition pak + length data <= length (bytes pak))%nat.
Proof.
  intros (post & Hs & Hle).
  assert (Hlen : length (skipn (readPosition pak) (bytes pak))
                 = length (data ++ post)) by now rewrite Hs.
  rewrite length_skipn, length_app in Hlen.
  split; [|lia].
  rewrite Hs, firstn_app, Nat.sub_diag, firstn_all. cbn [firstn].
  apply app_nil_r.
Qed.

Lemma parse_TArith_Read_wire T x d pak :
  fits T x -> has_type key_comp (TArith T) d ->
  unread (wire_arith host T x) pak ->
  parse host key_comp Read false (TArith T) d pak
  = (Ok (VArith x), consumed (length (wire_arith host T x)) pak).
Proof.
  intros Hx Hd Hun. destruct d; try contradiction. cbn [parse].
  erewrite bind_ok by (apply (parse_arith_Read_wire host T x); assumption).
  unfold ret. now rewrite wire_arith_length.
Qed.

Lemma parse_range_Read lvalue cat E vs dsts pak :
  Read_spec host key_comp E ->
  unqualified E = true ->
  Forall (has_type key_comp E) vs -> Forall (counts_fit E) vs ->
  Forall (has_type key_comp E) dsts -> length dsts = length vs ->
  unread (concat (map (wire host E) vs)) pak ->
  parse_range host Read lvalue cat false E (parse host key_comp Read false E) dsts pak
  = (Ok vs, consumed (length (concat (map (wire host E) vs))) pak).
Proof.
  intros IH Hq Hvs Hfit Hds Hlen Hun.
  assert (Hgen : for_each (parse host key_comp Read false E) dsts pak
                 = (Ok vs, consumed (length (concat (map (wire host E) vs))) pak)).
  { apply (for_each_Read _ (wire host E) (has_type key_comp E)); try assumption.
    intros v Hv d pak' Hd Hun'. rewrite Forall_forall in Hvs, Hfit.
    apply IH; auto. }
  unfold parse_range.
  destruct (enable_if_contiguous_range lvalue cat E) as [[A c]|] eqn:He;
    [|exact Hgen].
  destruct (contiguous_of_unqualified _ _ _ _ _ Hq He) as [-> ->].
  destruct (arith_elems key_comp _ _ Hds) as (ys & -> & _).
  destruct (arith_elems key_comp _ _ Hvs) as (xs & -> & Hxs).
  rewrite !length_map in Hlen.
  destruct (unread_firstn _ _ Hun) as [Hfirst Hin].
  rewrite (wire_arith_elems_length host) in Hfirst, Hin.
  rewrite <- Hgen. apply contiguous_Read_generic; rewrite Hlen; [exact Hin|].
  rewrite Hfirst, (wire_arith_elems host). apply wire_arith_elems_bytes.
Qed.

Lemma parse_args_Read Ts :
  Forall (Read_spec host key_comp) Ts ->
  forall args dsts pak,
    forallb unqualified Ts = true ->
    have_types key_comp Ts args ->
    counts_fit_args Ts args ->
    have_types key_comp Ts dsts ->
    unread (wire_args host Ts args) pak ->
    parse_args host key_comp Read Ts dsts pak
    = (Ok args, consumed (length (wire_args host Ts args)) pak).
Proof.
  induction 1 as [|T Ts HT _ IH]; intros [|v args] [|d dsts] pak Hq Hty Hfit Hd Hun;
    try contradiction.
  - cbn. now rewrite consumed_0.
  - cbn [forallb] in Hq. apply andb_prop in Hq. destruct Hq as [HqT HqTs].
    destruct Hty as [Hv Hargs]. destruct Hfit as [Hfv Hfargs].
    destruct Hd as [Hd Hdsts].
    cbn [parse_args wire_args] in *.
    apply unread_app in Hun. destruct Hun as [Hun1 Hun2].
    erewrite bind_ok by (apply (HT v); assumption).
    erewrite bind_ok by (apply (IH args); assumption).
    unfold ret. now rewrite consumed_add, length_app.
Qed.

(** [t.insert(t.end(), x)] when every key of [t] comes before the key of [x]. *)
Lemma map_insert_end x t :
  Forall (fun e => key_before key_comp e x) t -> map_insert key_comp x t = t ++ [x].
Proof.
  induction 1 as [|e t [He1 He2] _ IH]; [reflexivity|].
  cbn [map_insert app]. now rewrite He2, He1, IH.
Qed.

Lemma map_sorted_prefix acc x rest :
  map_sorted key_comp (acc ++ x :: rest) ->
  Forall (fun e => key_before key_comp e x) acc.
Proof.
  unfold map_sorted. induction acc as [|a acc IH]; intros Hs; [constructor|].
  cbn [app] in Hs. apply StronglySorted_inv in Hs. destruct Hs as [Hs Ha].
  constructor; [|now apply IH].
  rewrite Forall_forall in Ha. apply Ha, in_elt.
Qed.

Lemma insert_loop_Read (read_value : M (Value * Value)) (w : Value * Value -> list Z) rest :
  (forall e, In e rest -> forall pak,
      unread (w e) pak -> read_value pak = (Ok e, consumed (length (w e)) pak)) ->
  forall acc pak,
    map_sorted key_comp (acc ++ rest) ->
    unread (concat (map w rest)) pak ->
    insert_loop (map_insert key_comp) read_value (length rest) acc pak
    = (Ok (acc ++ rest), consumed (length (concat (map w rest))) pak).
Proof.
  induction rest as [|e rest IH]; intros Hrv acc pak Hs Hun.
  - cbn. now rewrite app_nil_r, consumed_0.
  - cbn [length insert_loop map concat] in *.
    apply unread_app in Hun. destruct Hun as [Hun1 Hun2].
    erewrite bind_ok by (apply Hrv; [now left|exact Hun1]).
    rewrite (map_insert_end e acc) by (eapply map_sorted_prefix; exact Hs).
    rewrite IH; [|intros; apply Hrv; [now right|assumption]
                 |now rewrite <- app_assoc|exact Hun2].
    now rewrite consumed_add, length_app, <- app_assoc.
Qed.

Lemma count_fits n : Z.of_nat n < 2 ^ 32 -> Z.to_nat (uint32_of_size n) = n.
Proof.
  intros H. unfold uint32_of_size. rewrite Z.mod_small by lia. apply Nat2Z.id.
Qed.

Lemma Read_correct T : Read_spec host key_comp T.
Proof.
  induction T as [A|T IH|N E IH|A B IHA IHB|N E IH|cat E IH|K V IHK IHV|hook fields IH]
    using Ty_induction; intros v d pak Hq Hty Hfit Hd Hun.
  - destruct v; try contradiction. cbn [wire] in *.
    now apply parse_TArith_Read_wire.
  - discriminate.
  - destruct v as [| |elems| | |]; try contradiction.
    destruct d as [| |dsts| | |]; try contradiction.
    destruct Hty as [Hlv Hall]. destruct Hd as [Hld Hdall].
    cbn [parse wire unqualified counts_fit] in *.
    erewrite bind_ok by (apply (parse_range_Read _ _ E elems); try assumption; congruence).
    reflexivity.
  - destruct v as [|a b| | | |]; try contradiction.
    destruct d as [|da db| | | |]; try contradiction.
    destruct Hty as [Ha Hb]. destruct Hd as [Hda Hdb]. destruct Hfit as [Hfa Hfb].
    cbn [unqualified] in Hq. apply andb_prop in Hq. destruct Hq as [HqA HqB].
    cbn [parse wire] in *.
    apply unread_app in Hun. destruct Hun as [Hun1 Hun2].
    erewrite bind_ok by (apply (IHA a); assumption).
    erewrite bind_ok by (apply (IHB b); assumption).
    unfold ret. now rewrite consumed_add, length_app.
  - destruct v as [| |elems| | |]; try contradiction.
    destruct d as [| |dsts| | |]; try contradiction.
    destruct Hty as [Hlv Hall]. destruct Hd as [Hld Hdall].
    cbn [parse wire unqualified counts_fit] in *.
    erewrite bind_ok by (apply (parse_range_Read _ _ E elems); try assumption; congruence).
    reflexivity.
  - destruct v as [| | |elems| |]; try contradiction.
    destruct d as [| | |dsts| |]; try contradiction.
    cbn [has_type] in Hty, Hd. destruct Hfit as [Hcount Hfit].
    cbn [parse wire unqualified] in *.
    apply unread_app in Hun. destruct Hun as [Hun1 Hun2].
    rewrite le_bytes_length in Hun2.
    erewrite bind_ok by (apply read_uint32_count; exact Hun1).
    rewrite count_fits by exact Hcount.
    erewrite bind_ok
      by (apply (parse_range_Read _ _ E elems); try assumption;
          [now apply resize_has_type|apply resize_length]).
    unfold ret. now rewrite consumed_add, length_app, le_bytes_length.
  - destruct v as [| | | |entries|]; try contradiction.
    destruct Hty as [Hall Hsorted]. destruct Hfit as [Hcount Hfit].
    cbn [unqualified] in Hq. apply andb_prop in Hq. destruct Hq as [HqK HqV].
    destruct d as [| | | |old|]; try contradiction.
    cbn [parse wire] in *.
    apply unread_app in Hun. destruct Hun as [Hun1 Hun2].
    rewrite le_bytes_length in Hun2.
    erewrite bind_ok by (apply read_uint32_count; exact Hun1).
    rewrite count_fits by exact Hcount.
    rewrite (unqualified_remove_const K HqK).
    erewrite bind_ok.
    2:{ apply (insert_loop_Read _
                 (fun e => wire host K (fst e) ++ wire host V (snd e))).
        - intros e He pak' Hun'. rewrite Forall_forall in Hall, Hfit.
          destruct (Hall e He) as [Hk Hv]. destruct (Hfit e He) as [Hfk Hfv].
          apply unread_app in Hun'. destruct Hun' as [Hu1 Hu2].
          erewrite bind_ok
            by (apply IHK; [assumption|exact Hk|exact Hfk
                           |apply default_has_type|exact Hu1]).
          erewrite bind_ok
            by (apply IHV; [assumption|exact Hv|exact Hfv
                           |apply default_has_type|exact Hu2]).
          unfold ret. rewrite consumed_add, length_app. now destruct e.
        - exact Hsorted.
        - exact Hun2. }
    unfold ret. cbn [app]. now rewrite consumed_add, length_app, le_bytes_length.
  - destruct v as [| | | | |vals]; try contradiction.
    destruct d as [| | | | |dvals]; try contradiction.
    apply has_type_TUser in Hty. apply has_type_TUser in Hd.
    cbn [unqualified counts_fit] in *.
    rewrite parse_TUser. rewrite wire_TUser in *.
    cbn [andb].
    erewrite bind_ok by (apply (parse_args_Read fields IH vals); assumption).
    reflexivity.
Qed.

End ReadPass.

(** ** The public members *)

Lemma static_asserts_unqualified T :
  unqualified T = true -> static_asserts_hold Read false T = true.
Proof.
  induction T as [A|T IH|N E IH|A B IHA IHB|N E IH|cat E IH|K V IHK IHV|hook fields IH]
    using Ty_induction; cbn [unqualified static_asserts_hold orb]; intros Hq; auto.
  - discriminate.
  - apply andb_prop in Hq. destruct Hq as [HA HB]. now rewrite IHA, IHB.
  - destruct (enable_if_contiguous_range _ _ E); auto.
  - destruct (enable_if_contiguous_range _ _ E); auto.
  - apply andb_prop in Hq. destruct Hq as [HK HV].
    cbn [is_Read]. rewrite (unqualified_remove_const K HK).
    now rewrite IHK, IHV.
  - cbn [andb negb]. rewrite forallb_forall in *. rewrite Forall_forall in IH.
    intros T HT. apply IH; auto.
Qed.

Lemma static_asserts_not_Read op cq T :
  is_Read op = false -> static_asserts_hold op cq T = true.
Proof.
  intros Hop. revert cq.
  induction T as [A|T IH|N E IH|A B IHA IHB|N E IH|cat E IH|K V IHK IHV|hook fields IH]
    using Ty_induction; intros cq; cbn [static_asserts_hold]; rewrite ?Hop, ?andb_false_r;
    cbn [negb andb]; auto.
  - rewrite IHA, IHB. apply orb_true_r.
  - destruct (enable_if_contiguous_range _ _ E); [|rewrite IH]; apply orb_true_r.
  - destruct (enable_if_contiguous_range _ _ E); [|rewrite IH]; apply orb_true_r.
  - rewrite IHK, IHV. apply orb_true_r.
  - apply forallb_forall. rewrite Forall_forall in IH. intros T HT. now apply IH.
Qed.

Section MemberFacts.

Variable host : Endian.
Variable key_comp : Value -> Value -> bool.

Lemma all_Reserve Ts : Forall (Reserve_spec host key_comp) Ts.
Proof. apply Forall_forall. intros T _. apply Reserve_correct. Qed.

Lemma all_Write Ts : Forall (Write_spec host key_comp) Ts.
Proof. apply Forall_forall. intros T _. apply Write_correct. Qed.

Lemma all_Read Ts : Forall (Read_spec host key_comp) Ts.
Proof. apply Forall_forall. intros T _. apply Read_correct. Qed.

(** A [write] on any [Pak] whose write cursor lies inside the buffer: the
    vector grows by the whole of [reserveSize], which still holds what the
    earlier calls accumulated. *)
Lemma write_correct Ts args pak :
  forallb (traversable false) Ts = true ->
  have_types key_comp Ts args ->
  (writePosition pak <= length (bytes pak))%nat ->
  let w := wire_args host Ts args in
  write host key_comp Ts args pak
  = (Ok tt,
     mkPak (splice (writePosition pak) w
              (bytes pak ++ repeat 0 (reserveSize pak + length w)))
           (reserveSize pak + length w)
           (writePosition pak + length w)
           (readPosition pak)).
Proof.
  intros Htrav Hty Hwp w. unfold write.
  erewrite bind_ok by (apply parse_args_Reserve; [apply all_Reserve|assumption..]).
  fold w.
  erewrite bind_ok by reflexivity.
  erewrite bind_ok.
  2:{ apply parse_args_Write; [apply all_Write|assumption..|].
      unfold room. cbn [grow reserved bytes writePosition reserveSize].
      fold w. rewrite length_app, repeat_length. lia. }
  reflexivity.
Qed.

Lemma Pak_of_correct Ts args :
  forallb (traversable false) Ts = true ->
  have_types key_comp Ts args ->
  let w := wire_args host Ts args in
  Pak_of host key_comp Ts args = (Ok tt, mkPak w (length w) (length w) 0).
Proof.
  intros Htrav Hty w. unfold Pak_of.
  rewrite write_correct by (try assumption; cbn; lia).
  fold w. cbn [Pak_new bytes reserveSize writePosition readPosition app Nat.add].
  now rewrite splice_fresh.
Qed.

Lemma read_correct Ts args dsts pak :
  forallb unqualified Ts = true ->
  have_types key_comp Ts args ->
  counts_fit_args Ts args ->
  have_types key_comp Ts dsts ->
  unread (wire_args host Ts args) pak ->
  read host key_comp Ts dsts pak
  = (Ok args, consumed (length (wire_args host Ts args)) pak).
Proof.
  intros Hq Hty Hfit Hd Hun. unfold read.
  replace (forallb (static_asserts_hold Read false) Ts) with true.
  - apply parse_args_Read; [apply all_Read|assumption..].
  - symmetry. apply forallb_forall. intros T HT.
    apply static_asserts_unqualified.
    rewrite forallb_forall in Hq. now apply Hq.
Qed.

(** [read<T>()] returns the value whose encoding is next in the buffer and
    advances the read cursor by the size of that encoding. *)
Lemma read_T_correct T v pak :
  unqualified T = true ->
  has_type key_comp T v -> counts_fit T v ->
  unread (wire host T v) pak ->
  read_T host key_comp T pak = (Ok v, consumed (length (wire host T v)) pak).
Proof.
  intros Hq Hv Hfit Hun. unfold read_T.
  rewrite static_asserts_unqualified by exact Hq.
  apply Read_correct; try assumption. apply default_has_type.
Qed.

End MemberFacts.

(** * The claims *)

(** ** Double swap *)



Example byteSwap_widths :
  byteSwap UInt16 0x0102 = 0x0201
  /\ byteSwap Int32 0x01020304 = 0x04030201
  /\ byteSwap UInt64 0x0102030405060708 = 0x0807060504030201
  /\ byteSwap UInt8 0x7F = 0x7F
  /\ byteSwap Float 0x3F800000 = 0x3F800000.
Proof. repeat split. Qed.

(** ** The contiguous range path *)

(** Claim C4.  For a range of arithmetic elements of any type [T], on either
    host, in each of the three passes, the contiguous-range overload leaves
    the same [Pak] (buffer, cursors, reservation) and the same destination
    values as the element-by-element iterator pair overload, as long as the
    traversal stays inside the buffer. *)
Theorem fast_path_equivalence
    (host : Endian) (key_comp : Value -> Value -> bool)
    (op : OpType) (T : Arith) (elems : list Value) (pak : Pak) :
  Forall (has_type key_comp (TArith T)) elems ->
  Forall is_byte (bytes pak) ->
  in_bounds op T (length elems) pak ->
  parse_contiguous host op T false elems pak
  = for_each (parse host key_comp op false (TArith T)) elems pak.
Proof.
  intros Hall Hb Hin.
  destruct (arith_elems key_comp _ _ Hall) as (xs & -> & Hxs).
  rewrite length_map in Hin.
  destruct op; cbn [in_bounds] in Hin.
  - now rewrite contiguous_Reserve, (generic_Reserve host key_comp).
  - now rewrite contiguous_Write, (generic_Write host key_comp).
  - apply contiguous_Read_generic; [exact Hin|].
    now apply Forall_firstn, Forall_skipn.
Qed.

Lemma fast_path_equivalence_witness :
  let key_comp := fun _ _ : Value => false in
  let elems := [VArith 0x0102; VArith 0x0304] in
  let pak := mkPak [0; 0; 0; 0; 0; 0] 4 2 0 in
  parse_contiguous BigEndian Write UInt16 false elems pak
  = for_each (parse BigEndian key_comp Write false (TArith UInt16)) elems pak.
Proof.
  apply fast_path_equivalence.
  - repeat constructor; cbn; lia.
  - repeat constructor; cbn; lia.
  - cbv. lia.
Defined.

Example fast_path_bytes :
  bytes (snd (parse_contiguous BigEndian Write UInt16 false
                [VArith 0x0102; VArith 0x0304] (mkPak [0; 0; 0; 0; 0; 0] 4 2 0)))
  = [0; 0; 0x02; 0x01; 0x04; 0x03].
Proof. reflexivity. Qed.

(** ** The [Reserve] pass is read-only on the buffer *)

Lemma same_buffer_refl pak : same_buffer pak pak.
Proof. now repeat split. Qed.

Lemma same_buffer_trans p1 p2 p3 :
  same_buffer p1 p2 -> same_buffer p2 p3 -> same_buffer p1 p3.
Proof. unfold same_buffer. intuition congruence. Qed.

Lemma keeps_ret {A} (a : A) : keeps_buffer (ret a).
Proof. intros pak. apply same_buffer_refl. Qed.

Lemma keeps_fail {A} e : keeps_buffer (@fail A e).
Proof. intros pak. apply same_buffer_refl. Qed.

Lemma keeps_bind {A B} (m : M A) (k : A -> M B) :
  keeps_buffer m -> (forall a, keeps_buffer (k a)) -> keeps_buffer (bind m k).
Proof.
  intros Hm Hk pak. unfold bind. specialize (Hm pak).
  destruct (m pak) as [[a|e] pak']; cbn [snd] in *; [|exact Hm].
  eapply same_buffer_trans; [exact Hm|apply Hk].
Qed.

Lemma keeps_add_reserveSize n : keeps_buffer (add_reserveSize n).
Proof. intros pak. now repeat split. Qed.

Lemma keeps_for_each {A} (f : A -> M A) l :
  (forall x, keeps_buffer (f x)) -> keeps_buffer (for_each f l).
Proof.
  intros Hf. induction l as [|x l IH]; cbn [for_each].
  - apply keeps_ret.
  - apply keeps_bind; [apply Hf|]. intros x'.
    apply keeps_bind; [exact IH|]. intros r. apply keeps_ret.
Qed.

Section ReserveFrame.

Variable host : Endian.
Variable key_comp : Value -> Value -> bool.

Lemma keeps_parse_arith cq T x : keeps_buffer (parse_arith host Reserve cq T x).
Proof.
  cbn [parse_arith]. apply keeps_bind; [apply keeps_add_reserveSize|].
  intros _. apply keeps_ret.
Qed.

Lemma keeps_parse_contiguous T c elems :
  keeps_buffer (parse_contiguous host Reserve T c elems).
Proof.
  unfold parse_contiguous. destruct (all_bits elems); [|apply keeps_fail].
  apply keeps_bind; [apply keeps_add_reserveSize|].
  intros _. apply keeps_ret.
Qed.

Lemma keeps_parse_range lvalue cat const_iters E f elems :
  (forall x, keeps_buffer (f x)) ->
  keeps_buffer (parse_range host Reserve lvalue cat const_iters E f elems).
Proof.
  intros Hf. unfold parse_range.
  destruct (enable_if_contiguous_range lvalue cat E) as [[A c]|].
  - apply keeps_parse_contiguous.
  - now apply keeps_for_each.
Qed.

Lemma keeps_parse_args Ts :
  Forall (fun T => forall cq v, keeps_buffer (parse host key_comp Reserve cq T v)) Ts ->
  forall args, keeps_buffer (parse_args host key_comp Reserve Ts args).
Proof.
  induction 1 as [|T Ts HT _ IH]; intros [|v args]; cbn [parse_args];
    try apply keeps_ret; try apply keeps_fail.
  apply keeps_bind; [apply HT|]. intros t'.
  apply keeps_bind; [apply IH|]. intros r. apply keeps_ret.
Qed.

Lemma keeps_parse T : forall cq v, keeps_buffer (parse host key_comp Reserve cq T v).
Proof.
  induction T as [A|T IH|N E IH|A B IHA IHB|N E IH|cat E IH|K V IHK IHV|hook fields IH]
    using Ty_induction; intros cq v.
  - destruct v; cbn [parse]; try apply keeps_fail.
    apply keeps_bind; [apply keeps_parse_arith|]. intros x'. apply keeps_ret.
  - cbn [parse]. apply IH.
  - destruct v; cbn [parse]; try apply keeps_fail.
    apply keeps_bind; [now apply keeps_parse_range|]. intros r. apply keeps_ret.
  - destruct v; cbn [parse]; try apply keeps_fail.
    destruct cq; [apply keeps_fail|].
    apply keeps_bind; [apply IHA|]. intros a.
    apply keeps_bind; [apply IHB|]. intros b. apply keeps_ret.
  - destruct v; cbn [parse]; try apply keeps_fail.
    destruct cq; [apply keeps_fail|].
    apply keeps_bind; [now apply keeps_parse_range|]. intros r. apply keeps_ret.
  - destruct v; cbn [parse]; try apply keeps_fail.
    apply keeps_bind; [apply keeps_parse_arith|]. intros _.
    apply keeps_bind; [now apply keeps_parse_range|]. intros r. apply keeps_ret.
  - destruct v; cbn [parse]; try apply keeps_fail.
    apply keeps_bind; [apply keeps_parse_arith|]. intros _.
    apply keeps_bind; [|intros r; apply keeps_ret].
    apply keeps_for_each. intros e.
    destruct cq; [apply keeps_fail|].
    apply keeps_bind; [apply IHK|]. intros k.
    apply keeps_bind; [apply IHV|]. intros v'. apply keeps_ret.
  - destruct v; try (cbn [parse]; apply keeps_fail).
    intros pak. rewrite parse_TUser. revert pak.
    destruct (cq && is_Read Reserve); [apply keeps_fail|].
    apply keeps_bind; [now apply keeps_parse_args|]. intros r. apply keeps_ret.
Qed.

End ReserveFrame.

(** Claim C9.  A [Reserve] pass over any argument list, from any [Pak] and
    whether it ends with a result or with a failure, leaves the bytes of the
    buffer, the write cursor and the read cursor as they were. *)
Theorem Reserve_keeps_buffer
    (host : Endian) (key_comp : Value -> Value -> bool)
    (Ts : list Ty) (args : list Value) (pak : Pak) :
  same_buffer pak (snd (parse_args host key_comp Reserve Ts args pak)).
Proof.
  apply keeps_parse_args. apply Forall_forall. intros T _. apply keeps_parse.
Qed.

(** A [Reserve] pass that fails half-way (the second argument is a const
    pair, which no overload accepts) has counted the first argument and
    touched nothing else. *)
Example Reserve_failure :
  parse_args LittleEndian (fun _ _ => false) Reserve
    [TArith Int32; TConst (TPair (TArith Int8) (TArith Int8))]
    [VArith 7; VPair (VArith 1) (VArith 2)]
    (mkPak [1; 2; 3] 0 3 1)
  = (Fail NoOverload, mkPak [1; 2; 3] 4 3 1).
Proof. reflexivity. Qed.

(** ** Arithmetic primitives on the wire *)

Lemma shouldByteSwap_spec host T :
  shouldByteSwap host T
  = match host with
    | BigEndian => is_integral T && (1 <? sizeof T)%nat
    | LittleEndian => false
    end.
Proof.
  unfold shouldByteSwap. rewrite isBigEndian_spec.
  destruct host, (is_integral T), (1 <? sizeof T)%nat; reflexivity.
Qed.

(** Claim C2, as the code has it.  An integral primitive of width [N] is
    stored as its [N] bytes in little-endian order on either host; on a
    big-endian host every multi-byte integral primitive is byte-reversed in
    the buffer on [Write] and in the destination on [Read].  A
    floating-point primitive is stored as its [N] bytes in the byte order of
    the host and is never reversed.  Either way [Read] returns the value
    written. *)
Theorem primitive_wire_bytes
    (host : Endian) (key_comp : Value -> Value -> bool) (T : Arith) (x y : Z) :
  fits T x -> fits T y ->
  let pak := snd (Pak_of host key_comp [TArith T] [VArith x]) in
  fst (Pak_of host key_comp [TArith T] [VArith x]) = Ok tt
  /\ length (bytes pak) = sizeof T
  /\ bytes pak = (if is_integral T then le_bytes (sizeof T) x
                  else host_repr host (sizeof T) x)
  /\ host_value host (bytes pak)
     = match host with
       | BigEndian => if is_integral T && (1 <? sizeof T)%nat then byteSwap T x else x
       | LittleEndian => x
       end
  /\ read host key_comp [TArith T] [VArith y] pak
     = (Ok [VArith x], consumed (sizeof T) pak).
Proof.
  intros Hx Hy pak. subst pak.
  rewrite Pak_of_correct by (cbn; auto).
  cbn [fst snd bytes wire_args wire]. rewrite app_nil_r.
  split; [reflexivity|]. split; [apply wire_arith_length|].
  split; [|split].
  - destruct (is_integral T) eqn:HT.
    + now apply wire_arith_integral.
    + now apply wire_arith_float.
  - unfold wire_arith. rewrite host_value_repr by now apply copyPrimitive_fits.
    unfold copyPrimitive. rewrite shouldByteSwap_spec.
    destruct host; [reflexivity|].
    now destruct (is_integral T && (1 <? sizeof T)%nat).
  - rewrite (read_correct host key_comp [TArith T] [VArith x]).
    + cbn [wire_args wire]. now rewrite app_nil_r, wire_arith_length.
    + reflexivity.
    + cbn. auto.
    + cbn. auto.
    + cbn. auto.
    + exists []. cbn [wire_args wire bytes readPosition skipn].
      rewrite !app_nil_r. split; [reflexivity|lia].
Qed.

Lemma primitive_wire_bytes_witness :
  let key_comp := fun _ _ : Value => false in
  let pak := snd (Pak_of BigEndian key_comp [TArith UInt32] [VArith 0x01020304]) in
  fst (Pak_of BigEndian key_comp [TArith UInt32] [VArith 0x01020304]) = Ok tt
  /\ length (bytes pak) = sizeof UInt32
  /\ bytes pak = (if is_integral UInt32 then le_bytes (sizeof UInt32) 0x01020304
                  else host_repr BigEndian (sizeof UInt32) 0x01020304)
  /\ host_value BigEndian (bytes pak)
     = (if is_integral UInt32 && (1 <? sizeof UInt32)%nat
        then byteSwap UInt32 0x01020304 else 0x01020304)
  /\ read BigEndian key_comp [TArith UInt32] [VArith 0] pak
     = (Ok [VArith 0x01020304], consumed (sizeof UInt32) pak).
Proof.
  apply (primitive_wire_bytes BigEndian (fun _ _ => false) UInt32 0x01020304 0);
    unfold fits; cbn; lia.
Defined.

(** Property X3, endian correctness.  On either host the 32-bit value [0x01020304] is
    encoded as the bytes [04 03 02 01], and these bytes are decoded as
    [0x01020304]. *)
Theorem endian_example (host : Endian) (key_comp : Value -> Value -> bool) :
  Pak_of host key_comp [TArith UInt32] [VArith 0x01020304]
  = (Ok tt, mkPak [0x04; 0x03; 0x02; 0x01] 4 4 0)
  /\ read host key_comp [TArith UInt32] [VArith 0]
       (mkPak [0x04; 0x03; 0x02; 0x01] 4 4 0)
     = (Ok [VArith 0x01020304], mkPak [0x04; 0x03; 0x02; 0x01] 4 4 4).
Proof. destruct host; split; reflexivity. Qed.

(** Against claim C2 as stated: on a big-endian host a [float] goes out
    most significant byte first.  [1.0f] is [0x3F800000]. *)
Lemma float_big_endian_counterexample :
  let pak := snd (Pak_of BigEndian (fun _ _ => false) [TArith Float] [VArith 0x3F800000]) in
  fits Float 0x3F800000
  /\ sizeof Float = 4%nat
  /\ bytes pak = [0x3F; 0x80; 0; 0]
  /\ le_bytes 4 0x3F800000 = [0; 0; 0x80; 0x3F]
  /\ bytes pak <> le_bytes 4 0x3F800000.
Proof.
  cbv zeta. split; [unfold fits; cbn; lia|].
  repeat split. discriminate.
Qed.

(** ** Size correctness across calls *)

(** Claim C3, at its failing input.  Two [write] calls on one [Pak], each
    with one [std::uint32_t].  The second [Reserve] pass accumulates 4 bytes
    and the second [Write] pass stores 4 bytes, but [reserveSize] still
    holds the 4 bytes of the first call: the vector grows by 8 and ends with
    4 bytes that no pass wrote. *)
Theorem second_write_overgrows (host : Endian) (key_comp : Value -> Value -> bool) :
  let pak1 := snd (write host key_comp [TArith UInt32] [VArith 1] Pak_new) in
  let pak2 := snd (write host key_comp [TArith UInt32] [VArith 2] pak1) in
  (size pak1 = 4 /\ writePosition pak1 = 4 /\ reserveSize pak1 = 4)%nat
  /\ (reserveSize pak2 - reserveSize pak1 = 4)%nat
  /\ (writePosition pak2 - writePosition pak1 = 4)%nat
  /\ (size pak2 - size pak1 = 8)%nat
  /\ bytes pak2 = [1; 0; 0; 0; 2; 0; 0; 0; 0; 0; 0; 0].
Proof. destruct host; repeat split. Qed.

(** In general: a [write] stores as many bytes as its [Reserve] pass
    counted, and grows the vector by that count plus whatever [reserveSize]
    held on entry. *)
Lemma write_growth host key_comp Ts args pak :
  forallb (traversable false) Ts = true ->
  have_types key_comp Ts args ->
  (writePosition pak <= length (bytes pak))%nat ->
  let n := length (wire_args host Ts args) in
  let pak' := snd (write host key_comp Ts args pak) in
  fst (write host key_comp Ts args pak) = Ok tt
  /\ (reserveSize pak' = reserveSize pak + n)%nat
  /\ (writePosition pak' = writePosition pak + n)%nat
  /\ (size pak' = size pak + reserveSize pak + n)%nat.
Proof.
  intros Htrav Hty Hwp n pak'. subst pak'.
  rewrite write_correct by assumption. fold n.
  unfold size. cbn [fst snd reserveSize writePosition bytes].
  do 3 (split; [reflexivity|]).
  rewrite splice_length; rewrite length_app, repeat_length; lia.
Qed.

(** ** Sequence framing *)



(** ** The element count *)

Lemma count_prefix host c rest pak :
  bytes pak = le_bytes 4 (uint32_of_size c) ++ rest ->
  readPosition pak = 0%nat ->
  firstn 4 (bytes pak) = le_bytes 4 (Z.of_nat c mod 2 ^ 32)
  /\ read_uint32 host pak = (Ok (Z.of_nat c mod 2 ^ 32), consumed 4 pak).
Proof.
  intros Hb Hr. split.
  - rewrite Hb, firstn_app, le_bytes_length, Nat.sub_diag, firstn_O, app_nil_r.
    unfold uint32_of_size. apply firstn_all2. now rewrite le_bytes_length.
  - apply read_uint32_count. exists rest. rewrite Hr, Hb. cbn [skipn].
    split; [reflexivity|lia].
Qed.

(** Claim C10.  The count that precedes the elements of a dynamic sequence
    or of a map is the size cast to [std::uint32_t].  For a container of
    [2 ^ 32] elements or more, the four count bytes on the wire hold the
    size modulo [2 ^ 32], which is less than the size, and that is what a
    reader gets back.  The [Reserve] pass counts four bytes for it, and then
    the bytes of every element. *)
Theorem count_truncated (host : Endian) (key_comp : Value -> Value -> bool) :
  (forall cat E elems,
      traversable false (TContainer cat E) = true ->
      has_type key_comp (TContainer cat E) (VSeq elems) ->
      2 ^ 32 <= Z.of_nat (length elems) ->
      let n := Z.of_nat (length elems) in
      let pak := snd (Pak_of host key_comp [TContainer cat E] [VSeq elems]) in
      firstn 4 (bytes pak) = le_bytes 4 (n mod 2 ^ 32)
      /\ read_uint32 host pak = (Ok (n mod 2 ^ 32), consumed 4 pak)
      /\ n mod 2 ^ 32 < n
      /\ reserveSize pak = (4 + length (concat (map (wire host E) elems)))%nat)
  /\ (forall K V entries,
         traversable false (TMap K V) = true ->
         has_type key_comp (TMap K V) (VMap entries) ->
         2 ^ 32 <= Z.of_nat (length entries) ->
         let n := Z.of_nat (length entries) in
         let pak := snd (Pak_of host key_comp [TMap K V] [VMap entries]) in
         firstn 4 (bytes pak) = le_bytes 4 (n mod 2 ^ 32)
         /\ read_uint32 host pak = (Ok (n mod 2 ^ 32), consumed 4 pak)
         /\ n mod 2 ^ 32 < n
         /\ reserveSize pak
            = (4 + length (concat (map (fun e => wire host K (fst e)
                                                  ++ wire host V (snd e))
                                       entries)))%nat).
Proof.
  split.
  - intros cat E elems Htrav Hty Hbig n pak. subst pak.
    rewrite Pak_of_correct by (cbn [forallb have_types]; auto; now rewrite Htrav).
    cbn [snd wire_args wire bytes reserveSize]. rewrite app_nil_r.
    destruct (count_prefix host (length elems)
                (concat (map (wire host E) elems))
                (mkPak (le_bytes 4 (uint32_of_size (length elems))
                          ++ concat (map (wire host E) elems))
                       (length (le_bytes 4 (uint32_of_size (length elems))
                                  ++ concat (map (wire host E) elems)))
                       (length (le_bytes 4 (uint32_of_size (length elems))
                                  ++ concat (map (wire host E) elems))) 0))
      as [Hfirst Hread]; [reflexivity..|].
    cbn [bytes] in Hfirst. fold n in Hfirst, Hread.
    split; [exact Hfirst|]. split; [exact Hread|]. split.
    + pose proof (Z.mod_pos_bound n (2 ^ 32)). lia.
    + now rewrite length_app, le_bytes_length.
  - intros K V entries Htrav Hty Hbig n pak. subst pak.
    rewrite Pak_of_correct by (cbn [forallb have_types]; auto; now rewrite Htrav).
    cbn [snd wire_args wire bytes reserveSize]. rewrite app_nil_r.
    set (rest := concat (map (fun e => wire host K (fst e) ++ wire host V (snd e))
                             entries)).
    destruct (count_prefix host (length entries) rest
                (mkPak (le_bytes 4 (uint32_of_size (length entries)) ++ rest)
                       (length (le_bytes 4 (uint32_of_size (length entries)) ++ rest))
                       (length (le_bytes 4 (uint32_of_size (length entries)) ++ rest))
                       0))
      as [Hfirst Hread]; [reflexivity..|].
    cbn [bytes] in Hfirst. fold n in Hfirst, Hread.
    split; [exact Hfirst|]. split; [exact Hread|]. split.
    + pose proof (Z.mod_pos_bound n (2 ^ 32)). lia.
    + now rewrite length_app, le_bytes_length.
Qed.

Lemma repeat_has_type key_comp E v n :
  has_type key_comp E v -> Forall (has_type key_comp E) (repeat v n).
Proof.
  intros Hv. apply Forall_forall. intros x Hx. apply repeat_spec in Hx. now subst.
Qed.

(** A byte string of [2 ^ 32] zero bytes: the count on the wire is 0. *)
Lemma count_truncated_witness :
  let key_comp := fun _ _ : Value => false in
  let E := TArith UInt8 in
  let elems := repeat (VArith 0) (Z.to_nat (2 ^ 32)) in
  let n := Z.of_nat (length elems) in
  let pak := snd (Pak_of LittleEndian key_comp
                    [TContainer random_access_iterator_tag E] [VSeq elems]) in
  firstn 4 (bytes pak) = le_bytes 4 (n mod 2 ^ 32)
  /\ read_uint32 LittleEndian pak = (Ok (n mod 2 ^ 32), consumed 4 pak)
  /\ n mod 2 ^ 32 < n
  /\ reserveSize pak
     = (4 + length (concat (map (wire LittleEndian E) elems)))%nat.
Proof.
  intros key_comp E elems.
  apply (proj1 (count_truncated LittleEndian key_comp)
           random_access_iterator_tag E elems).
  - reflexivity.
  - apply (repeat_has_type key_comp E (VArith 0)).
    unfold fits. split; [|apply Z.pow_pos_nonneg]; lia.
  - unfold elems. rewrite repeat_length, Z2Nat.id; lia.
Defined.

(** ** Map framing *)

(** Claim C5.  Reading a map whose encoding is next in the buffer: the
    4-byte count comes first, whatever the destination held is discarded,
    and the destination ends up with exactly the entries that were encoded,
    each inserted behind the ones before it. *)
Theorem map_read_replaces
    (host : Endian) (key_comp : Value -> Value -> bool)
    (K V : Ty) (entries old : list (Value * Value)) (pak : Pak) :
  unqualified (TMap K V) = true ->
  has_type key_comp (TMap K V) (VMap entries) ->
  counts_fit (TMap K V) (VMap entries) ->
  unread (wire host (TMap K V) (VMap entries)) pak ->
  let body := concat (map (fun e => wire host K (fst e) ++ wire host V (snd e))
                          entries) in
  read_uint32 host pak = (Ok (Z.of_nat (length entries)), consumed 4 pak)
  /\ read host key_comp [TMap K V] [VMap old] pak
     = (Ok [VMap entries], consumed (4 + length body) pak)
  /\ insert_loop (map_insert key_comp)
       (first <- parse host key_comp Read false K (default K) ;;
        second <- parse host key_comp Read false V (default V) ;;
        ret (first, second))
       (length entries) [] (consumed 4 pak)
     = (Ok entries, consumed (4 + length body) pak).
Proof.
  intros Hq Hty Hfit Hun body.
  assert (Hcount : Z.of_nat (length entries) < 2 ^ 32) by apply Hfit.
  pose proof Hun as Hun'. cbn [wire] in Hun'. fold body in Hun'.
  apply unread_app in Hun'. destruct Hun' as [Hun1 Hun2].
  rewrite le_bytes_length in Hun2.
  assert (Hread : read_uint32 host pak
                  = (Ok (Z.of_nat (length entries)), consumed 4 pak)).
  { rewrite (read_uint32_count host (length entries)) by exact Hun1.
    unfold uint32_of_size. rewrite Z.mod_small by lia. reflexivity. }
  split; [exact Hread|]. split.
  - change (read host key_comp [TMap K V] [VMap old] pak)
      with (read host key_comp [TMap K V] [VMap []] pak).
    rewrite (read_correct host key_comp [TMap K V] [VMap entries]).
    + cbn [wire_args wire]. fold body.
      now rewrite app_nil_r, length_app, le_bytes_length.
    + cbn [forallb]. now rewrite Hq.
    + cbn [have_types]. auto.
    + split; [exact Hfit|exact I].
    + cbn [have_types has_type]. repeat split; constructor.
    + cbn [wire_args]. now rewrite app_nil_r.
  - cbn [unqualified] in Hq. apply andb_prop in Hq. destruct Hq as [HqK HqV].
    destruct Hty as [Hall Hsorted]. destruct Hfit as [_ Hfit].
    rewrite (insert_loop_Read key_comp _
               (fun e => wire host K (fst e) ++ wire host V (snd e))).
    + cbn [app]. now rewrite consumed_add.
    + intros e He pak' Hune. rewrite Forall_forall in Hall, Hfit.
      destruct (Hall e He) as [Hk Hv]. destruct (Hfit e He) as [Hfk Hfv].
      apply unread_app in Hune. destruct Hune as [Hu1 Hu2].
      erewrite bind_ok
        by (apply (Read_correct host key_comp K (fst e));
            [assumption|exact Hk|exact Hfk|apply default_has_type|exact Hu1]).
      erewrite bind_ok
        by (apply (Read_correct host key_comp V (snd e));
            [assumption|exact Hv|exact Hfv|apply default_has_type|exact Hu2]).
      unfold ret. rewrite consumed_add, length_app. now destruct e.
    + exact Hsorted.
    + exact Hun2.
Qed.

(** [std::less] on the bit patterns of unsigned keys. *)
Lemma map_read_replaces_witness :
  let key_comp := fun a b : Value =>
    match a, b with
    | VArith x, VArith y => x <? y
    | _, _ => false
    end in
  let K := TArith Int32 in
  let V := TContainer random_access_iterator_tag (TArith Int8) in
  let entries := [(VArith 1, VSeq [VArith 97])] in
  let old := [(VArith 5, VSeq [VArith 122; VArith 122]); (VArith 9, VSeq [])] in
  let pak := snd (Pak_of LittleEndian key_comp [TMap K V] [VMap entries]) in
  let body := concat (map (fun e => wire LittleEndian K (fst e)
                                      ++ wire LittleEndian V (snd e)) entries) in
  read_uint32 LittleEndian pak = (Ok (Z.of_nat (length entries)), consumed 4 pak)
  /\ read LittleEndian key_comp [TMap K V] [VMap old] pak
     = (Ok [VMap entries], consumed (4 + length body) pak)
  /\ insert_loop (map_insert key_comp)
       (first <- parse LittleEndian key_comp Read false K (default K) ;;
        second <- parse LittleEndian key_comp Read false V (default V) ;;
        ret (first, second))
       (length entries) [] (consumed 4 pak)
     = (Ok entries, consumed (4 + length body) pak).
Proof.
  intros key_comp K V entries old pak.
  apply (map_read_replaces LittleEndian key_comp K V entries old pak).
  - reflexivity.
  - split.
    + repeat constructor; cbn; lia.
    + repeat constructor.
  - split; [cbn; lia|]. repeat constructor; try (cbn; lia).
  - exists []. split; [vm_compute; reflexivity|vm_compute; lia].
Defined.

Example map_framing_bytes (host : Endian) :
  let key_comp := fun a b : Value =>
    match a, b with
    | VArith x, VArith y => x <? y
    | _, _ => false
    end in
  let T := TMap (TArith Int32)
                (TContainer random_access_iterator_tag (TArith Int8)) in
  let pak := snd (Pak_of host key_comp [T] [VMap [(VArith 1, VSeq [VArith 97])]]) in
  bytes pak = [1; 0; 0; 0;  1; 0; 0; 0;  1; 0; 0; 0;  97]
  /\ fst (read host key_comp [T]
            [VMap [(VArith 5, VSeq [VArith 122; VArith 122]); (VArith 9, VSeq [])]]
            pak)
     = Ok [VMap [(VArith 1, VSeq [VArith 97])]].
Proof. destruct host; split; reflexivity. Qed.

(** ** Round trip *)




(** What [traversable] leaves out.  The key of a map is visited through
    the [const K] of [std::pair<const K, V>]: a [std::string] key reaches
    the contiguous [Write] overload with const iterators, and a pair key
    finds no overload at all. *)
Example string_key_not_written :
  let T := TMap (TContainer random_access_iterator_tag (TArith Int8)) (TArith Int32) in
  traversable false T = false
  /\ fst (Pak_of LittleEndian (fun _ _ => false) [T]
            [VMap [(VSeq [VArith 97], VArith 1)]])
     = Fail NoOverload.
Proof. split; reflexivity. Qed.

Example pair_key_not_written :
  let T := TMap (TPair (TArith Int8) (TArith Int8)) (TArith Int32) in
  traversable false T = false
  /\ fst (Pak_of LittleEndian (fun _ _ => false) [T]
            [VMap [(VPair (VArith 1) (VArith 2), VArith 1)]])
     = Fail NoOverload.
Proof. split; reflexivity. Qed.

(** ** Immutable destinations *)

Lemma reaches_const_asserted T :
  reaches_const T -> static_asserts_hold Read false T = false.
Proof.
  induction 1 as [T [[A ->]|(hook & fields & ->)]
                 |N E _ IH|A B _ IH|A B _ IH|N E He _ IH|cat E He _ IH
                 |K V _ IH|K V _ IH|hook fields T Hin _ IH];
    cbn [static_asserts_hold is_Read orb andb negb]; try reflexivity; try assumption.
  - now rewrite IH.
  - rewrite IH. apply andb_false_r.
  - now rewrite He.
  - now rewrite He.
  - now rewrite IH.
  - rewrite IH. apply andb_false_r.
  - apply not_true_is_false. intros Hall.
    rewrite forallb_forall in Hall. specialize (Hall T Hin). congruence.
Qed.

(** The traversal of a const destination fails on the spot. *)
Lemma parse_const_destination host key_comp T v pak :
  const_destination T -> has_type key_comp T v ->
  parse host key_comp Read false T v pak = (Fail ConstViolation, pak).
Proof.
  intros [[A ->]|(hook & fields & ->)] Hv;
    destruct v; try contradiction; reflexivity.
Qed.

(** Claim C8.  A [read] whose argument list binds a const arithmetic object
    or a const object of a user-defined type (with a member or with a free
    [serialize]), as an argument or anywhere inside one, fails with
    [ConstViolation]; the [Pak] is the one the call received, so no byte
    was consumed, not even for the arguments that come first. *)
Theorem const_destination_rejected
    (host : Endian) (key_comp : Value -> Value -> bool)
    (Ts : list Ty) (args : list Value) (pak : Pak) (T : Ty) :
  In T Ts ->
  reaches_const T ->
  read host key_comp Ts args pak = (Fail ConstViolation, pak).
Proof.
  intros Hin Hconst. unfold read.
  replace (forallb (static_asserts_hold Read false) Ts) with false; [reflexivity|].
  symmetry. apply not_true_is_false. intros Hall.
  rewrite forallb_forall in Hall. specialize (Hall T Hin).
  rewrite (reaches_const_asserted T Hconst) in Hall. discriminate.
Qed.

(** The second argument is a [std::pair] whose second member is a const
    object of a type with a free [serialize]. *)
Lemma const_destination_rejected_witness :
  let key_comp := fun _ _ : Value => false in
  let T := TPair (TArith Int8) (TConst (TUser FreeSerialize [TArith Int8])) in
  let Ts := [TArith Int32; T] in
  let args := [VArith 0; VPair (VArith 0) (VUser [VArith 0])] in
  let pak := mkPak [7; 0; 0; 0; 1; 2] 6 6 0 in
  read LittleEndian key_comp Ts args pak = (Fail ConstViolation, pak).
Proof.
  intros key_comp T Ts args pak.
  apply (const_destination_rejected LittleEndian key_comp Ts args pak T).
  - right. left. reflexivity.
  - apply reaches_second, reaches_here.
    right. exists FreeSerialize, [TArith Int8]. reflexivity.
Defined.

Example const_arguments_rejected :
  let pak := mkPak [7; 0; 0; 0; 1] 5 5 0 in
  read LittleEndian (fun _ _ => false)
    [TArith Int32; TConst (TArith Int8)] [VArith 0; VArith 0] pak
  = (Fail ConstViolation, pak)
  /\ read BigEndian (fun _ _ => false)
       [TConst (TUser MemberSerialize [TArith Int32])] [VUser [VArith 0]] pak
     = (Fail ConstViolation, pak).
Proof. split; reflexivity. Qed.

(** The same arguments are accepted by [write]: the qualifier only matters
    to [Read]. *)
Example const_argument_written :
  Pak_of LittleEndian (fun _ _ => false)
    [TConst (TArith Int32); TConst (TUser MemberSerialize [TArith Int8])]
    [VArith 7; VUser [VArith 1]]
  = (Ok tt, mkPak [7; 0; 0; 0; 1] 5 5 0).
Proof. reflexivity. Qed.

(** Without the qualifier the first argument is read. *)
Example mutable_destination_read :
  read LittleEndian (fun _ _ => false) [TArith Int32] [VArith 0]
    (mkPak [7; 0; 0; 0; 1] 5 5 0)
  = (Ok [VArith 7], mkPak [7; 0; 0; 0; 1] 5 5 4).
Proof. reflexivity. Qed.

(** ** Further properties of the public members *)





(** * Further properties *)

(** ** The portable [byteSwap] *)

Lemma set_byte_app_l pre x b rest :
  set_byte (length pre) x (pre ++ b :: rest) = pre ++ x :: rest.
Proof. induction pre as [|p pre IH]; cbn [length app set_byte]; [|rewrite IH]; reflexivity. Qed.

Lemma nth_app_here (pre : list Z) b rest :
  nth (length pre) (pre ++ b :: rest) 0 = b.
Proof. induction pre as [|p pre IH]; cbn [length app nth]; auto. Qed.

Lemma swap_bytes_ends pre x mid y post :
  swap_bytes (length pre) (length pre + length (x :: mid ++ [y]) - 1)
    (pre ++ (x :: mid ++ [y]) ++ post)
  = pre ++ (y :: mid ++ [x]) ++ post.
Proof.
  unfold swap_bytes.
  assert (He : (length pre + length (x :: mid ++ [y]) - 1
                = length (pre ++ x :: mid))%nat).
  { cbn [length]. rewrite !length_app. cbn [length]. lia. }
  rewrite He.
  assert (Hm : pre ++ (x :: mid ++ [y]) ++ post = (pre ++ x :: mid) ++ y :: post).
  { cbn [app]. rewrite <- !app_assoc. reflexivity. }
  rewrite Hm at 2. rewrite nth_app_here.
  cbn [app]. rewrite nth_app_here, set_byte_app_l.
  replace (pre ++ y :: (mid ++ [y]) ++ post) with ((pre ++ y :: mid) ++ y :: post)
    by (cbn [app]; rewrite <- !app_assoc; reflexivity).
  replace (length (pre ++ x :: mid)) with (length (pre ++ y :: mid))
    by (rewrite !length_app; reflexivity).
  rewrite set_byte_app_l. cbn [app]. rewrite <- !app_assoc. reflexivity.
Qed.

Lemma swap_loop_reverses fuel : forall pre mid post,
  (length mid <= 2 * fuel + 1)%nat ->
  swap_loop fuel (length pre) (length pre + length mid - 1) (pre ++ mid ++ post)
  = Some (pre ++ rev mid ++ post).
Proof.
  induction fuel as [|fuel IH]; intros pre mid post Hlen.
  - destruct mid as [|x [|y mid]]; cbn [length] in Hlen; try lia;
      cbn [swap_loop length];
      replace (length pre <? _)%nat with false
        by (symmetry; apply Nat.ltb_ge; lia); reflexivity.
  - destruct mid as [|x mid].
    + cbn [swap_loop length].
      replace (length pre <? _)%nat with false
        by (symmetry; apply Nat.ltb_ge; lia). reflexivity.
    + destruct (exists_last (l := x :: mid)) as (mid' & y & Hmid); [discriminate|].
      destruct mid' as [|x' mid'].
      * cbn [app] in Hmid. injection Hmid as -> ->.
        cbn [swap_loop length].
        replace (length pre <? _)%nat with false
          by (symmetry; apply Nat.ltb_ge; lia). reflexivity.
      * cbn [app] in Hmid. injection Hmid as <- ->.
        cbn [swap_loop].
        replace (length pre <? _)%nat with true
          by (symmetry; apply Nat.ltb_lt; cbn [length]; rewrite length_app;
              cbn [length]; lia).
        rewrite swap_bytes_ends.
        replace (pre ++ (y :: mid' ++ [x]) ++ post)
          with ((pre ++ [y]) ++ mid' ++ (x :: post))
          by (cbn [app]; rewrite <- !app_assoc; reflexivity).
        replace (length pre + 1)%nat with (length (pre ++ [y]))
          by (rewrite length_app; reflexivity).
        replace (length pre + length (x :: mid' ++ [y]) - 1 - 1)%nat
          with (length (pre ++ [y]) + length mid' - 1)%nat
          by (cbn [length]; rewrite !length_app; cbn [length]; lia).
        rewrite IH by (cbn [length] in Hlen; rewrite length_app in Hlen;
                       cbn [length] in Hlen; lia).
        f_equal. cbn [rev app]. rewrite rev_app_distr. cbn [rev app].
        rewrite <- !app_assoc. reflexivity.
Qed.

Lemma byteSwap_generic_rev mem : byteSwap_generic mem = Some (rev mem).
Proof.
  unfold byteSwap_generic.
  pose proof (swap_loop_reverses (length mem) [] mem []) as H.
  cbn [length app Nat.add] in H. rewrite !app_nil_r in H.
  apply H. lia.
Qed.

(** Property X4.  The [byteSwap] of lines 49-57, run on the object
    representation of an arithmetic value of any width on either host,
    terminates, leaves the bytes in reverse order and so holds the value
    [bswap] computes: for the integral types of 2, 4 and 8 bytes it agrees
    with the intrinsics of lines 41-47, and run twice it gives the bytes
    back. *)
Theorem byteSwap_generic_agrees (host : Endian) (T : Arith) (x : Z) :
  fits T x ->
  let mem := host_repr host (sizeof T) x in
  byteSwap_generic mem = Some (rev mem)
  /\ byteSwap_generic (rev mem) = Some mem
  /\ rev mem = host_repr host (sizeof T) (bswap (sizeof T) x)
  /\ (is_integral T = true -> (1 < sizeof T)%nat ->
      rev mem = host_repr host (sizeof T) (byteSwap T x)).
Proof.
  intros Hx mem. subst mem.
  split; [apply byteSwap_generic_rev|].
  split; [rewrite byteSwap_generic_rev; now rewrite rev_involutive|].
  assert (Hrev : rev (host_repr host (sizeof T) x)
                 = host_repr host (sizeof T) (bswap (sizeof T) x)).
  { unfold host_repr. destruct host; rewrite le_bytes_bswap; [reflexivity|].
    reflexivity. }
  split; [exact Hrev|].
  intros HT Hs. rewrite Hrev.
  destruct (byteSwap_integral T x HT) as [->|[H1 _]]; [reflexivity|lia].
Qed.

Lemma byteSwap_generic_agrees_witness :
  let mem := host_repr BigEndian (sizeof Int32) 0x01020304 in
  byteSwap_generic mem = Some (rev mem)
  /\ byteSwap_generic (rev mem) = Some mem
  /\ rev mem = host_repr BigEndian (sizeof Int32) (bswap (sizeof Int32) 0x01020304)
  /\ (is_integral Int32 = true -> (1 < sizeof Int32)%nat ->
      rev mem = host_repr BigEndian (sizeof Int32) (byteSwap Int32 0x01020304)).
Proof.
  apply (byteSwap_generic_agrees BigEndian Int32 0x01020304).
  unfold fits. cbn. lia.
Defined.

Example byteSwap_generic_example :
  byteSwap_generic [1; 2; 3; 4; 5; 6; 7; 8] = Some [8; 7; 6; 5; 4; 3; 2; 1]
  /\ byteSwap_generic [1; 2; 3] = Some [3; 2; 1]
  /\ byteSwap_generic [9] = Some [9].
Proof. repeat split. Qed.

(** ** Crossing hosts *)





Lemma le_value_rev_bswap n x : le_value (rev (le_bytes n x)) = bswap n x.
Proof. symmetry. apply bswap_rev. Qed.

(** Property X6.  A floating-point value does not cross hosts: written on
    a host of one byte order and read on a host of the other, it arrives
    with its bytes reversed. *)
Theorem float_crosses_reversed
    (writer reader : Endian) (key_comp : Value -> Value -> bool)
    (T : Arith) (x y : Z) :
  is_integral T = false ->
  writer <> reader ->
  fits T x ->
  let pak := snd (Pak_of writer key_comp [TArith T] [VArith x]) in
  read reader key_comp [TArith T] [VArith y] pak
  = (Ok [VArith (bswap (sizeof T) x)], consumed (sizeof T) pak).
Proof.
  intros HT Hne Hx pak. subst pak.
  rewrite Pak_of_correct by (cbn; auto).
  cbn [snd wire_args wire]. rewrite app_nil_r.
  rewrite wire_arith_float by exact HT.
  unfold read. cbn [forallb static_asserts_hold is_Read andb negb parse_args].
  erewrite bind_ok.
  2:{ apply parse_TArith_Read. cbn [readPosition bytes Nat.add].
      rewrite host_repr_length. lia. }
  cbn [readPosition bytes skipn].
  rewrite (firstn_all2 (host_repr writer (sizeof T) x))
    by (rewrite host_repr_length; lia).
  unfold copyPrimitive. rewrite shouldByteSwap_float by exact HT.
  assert (Hval : host_value reader (host_repr writer (sizeof T) x)
                 = bswap (sizeof T) x).
  { unfold host_value, host_repr.
    destruct writer, reader; try congruence; apply le_value_rev_bswap. }
  rewrite Hval. reflexivity.
Qed.

Lemma float_crosses_reversed_witness :
  let key_comp := fun _ _ : Value => false in
  let pak := snd (Pak_of LittleEndian key_comp [TArith Float] [VArith 0x3F800000]) in
  read BigEndian key_comp [TArith Float] [VArith 0] pak
  = (Ok [VArith (bswap (sizeof Float) 0x3F800000)], consumed (sizeof Float) pak).
Proof.
  apply (float_crosses_reversed LittleEndian BigEndian (fun _ _ => false)
           Float 0x3F800000 0).
  - reflexivity.
  - discriminate.
  - unfold fits. cbn. lia.
Defined.

Example float_crosses_reversed_value : bswap (sizeof Float) 0x3F800000 = 0x0000803F.
Proof. reflexivity. Qed.

(** ** What the [Read] pass leaves alone *)

Section KeepsFacts.

Context {R : Pak -> Pak -> Prop}.
Hypothesis R_refl : forall pak, R pak pak.
Hypothesis R_trans : forall p1 p2 p3, R p1 p2 -> R p2 p3 -> R p1 p3.

Lemma keeps_R_ret {A} (a : A) : keeps R (ret a).
Proof. intros pak. apply R_refl. Qed.

Lemma keeps_R_fail {A} e : keeps R (@fail A e).
Proof. intros pak. apply R_refl. Qed.

Lemma keeps_R_bind {A B} (m : M A) (k : A -> M B) :
  keeps R m -> (forall a, keeps R (k a)) -> keeps R (bind m k).
Proof.
  intros Hm Hk pak. unfold bind. specialize (Hm pak).
  destruct (m pak) as [[a|e] pak']; cbn [snd] in *; [|exact Hm].
  eapply R_trans; [exact Hm|apply Hk].
Qed.

Lemma keeps_R_for_each {A} (f : A -> M A) l :
  (forall x, keeps R (f x)) -> keeps R (for_each f l).
Proof.
  intros Hf. induction l as [|x l IH]; cbn [for_each].
  - apply keeps_R_ret.
  - apply keeps_R_bind; [apply Hf|]. intros x'.
    apply keeps_R_bind; [exact IH|]. intros r. apply keeps_R_ret.
Qed.

Lemma keeps_R_insert_loop {A} (insert : A -> list A -> list A) (rv : M A) n :
  keeps R rv -> forall t, keeps R (insert_loop insert rv n t).
Proof.
  intros Hrv. induction n as [|n IH]; intros t; cbn [insert_loop].
  - apply keeps_R_ret.
  - apply keeps_R_bind; [exact Hrv|]. intros x. apply IH.
Qed.

Variable host : Endian.
Variable key_comp : Value -> Value -> bool.
Variable op : OpType.

Hypothesis keeps_contiguous : forall T c elems,
  keeps R (parse_contiguous host op T c elems).

Lemma keeps_R_parse_range lvalue cat c E f elems :
  (forall x, keeps R (f x)) ->
  keeps R (parse_range host op lvalue cat c E f elems).
Proof.
  intros Hf. unfold parse_range.
  destruct (enable_if_contiguous_range lvalue cat E) as [[A c']|].
  - apply keeps_contiguous.
  - now apply keeps_R_for_each.
Qed.

Lemma keeps_R_parse_args Ts :
  Forall (fun T => forall cq v, keeps R (parse host key_comp op cq T v)) Ts ->
  forall args, keeps R (parse_args host key_comp op Ts args).
Proof.
  induction 1 as [|T Ts HT _ IH]; intros [|v args]; cbn [parse_args];
    try apply keeps_R_ret; try apply keeps_R_fail.
  apply keeps_R_bind; [apply HT|]. intros t'.
  apply keeps_R_bind; [apply IH|]. intros r. apply keeps_R_ret.
Qed.

End KeepsFacts.

Ltac keeps_intro :=
  lazymatch goal with
  | |- keeps _ _ => idtac
  | |- _ => intros
  end.

Ltac keeps_steps :=
  repeat first
    [ solve [auto]
    | progress unfold read_uint32
    | apply keeps_R_fail; assumption
    | apply keeps_R_ret; assumption
    | apply keeps_R_parse_range; try assumption
    | apply keeps_R_for_each; try assumption; keeps_intro
    | apply keeps_R_insert_loop; try assumption; keeps_intro
    | apply keeps_R_bind; try assumption; keeps_intro ].

(** Every overload of [parse] keeps a relation that the primitive and the
    contiguous overloads of its pass keep. *)
Lemma keeps_R_parse (R : Pak -> Pak -> Prop) host key_comp op :
  (forall pak, R pak pak) ->
  (forall p1 p2 p3, R p1 p2 -> R p2 p3 -> R p1 p3) ->
  (forall cq T x, keeps R (parse_arith host op cq T x)) ->
  (forall T c elems, keeps R (parse_contiguous host op T c elems)) ->
  forall T,
    (forall cq v, keeps R (parse host key_comp op cq T v))
    /\ (forall cq v, keeps R (parse host key_comp op cq (remove_const T) v)).
Proof.
  intros Hrefl Htrans Harith Hcontig.
  assert (Hfirst : forall T,
             (forall cq v, keeps R (parse host key_comp op cq T v)) ->
             match T with TConst _ => True | _ =>
               forall cq v, keeps R (parse host key_comp op cq (remove_const T) v)
             end).
  { intros T HT. destruct T; auto. }
  induction T as [A|T [IH _]|N E [IH _]|A B [IHA _] [IHB _]|N E [IH _]
                 |cat E [IH _]|K V [_ IHK'] [IHV _]|hook fields IH]
    using Ty_induction;
    try (match goal with
         | |- ?P /\ (forall cq v, keeps R (parse _ _ _ cq (remove_const ?T) v)) =>
             assert (Hp : P); [|exact (conj Hp (Hfirst T Hp))]
         end).
  - intros cq v. destruct v; cbn [parse]; keeps_steps.
  - split; [|exact IH]. intros cq v. cbn [parse]. apply IH.
  - intros cq v. destruct v; cbn [parse]; keeps_steps.
  - intros cq v. destruct v; cbn [parse]; try destruct cq; keeps_steps.
  - intros cq v. destruct v; cbn [parse]; try destruct cq; keeps_steps.
  - intros cq v. destruct v; cbn [parse]; try (now apply keeps_R_fail).
    destruct op; try destruct cq; keeps_steps.
  - assert (IHK : forall cq v, keeps R (parse host key_comp op cq K v)).
    { destruct K; try exact IHK'.
      intros cq' v'. cbn [parse]. apply IHK'. }
    intros cq v. destruct v; cbn [parse]; try (now apply keeps_R_fail).
    destruct op; destruct cq; keeps_steps.
  - intros cq v. destruct v; try (cbn [parse]; now apply keeps_R_fail).
    intros pak. rewrite parse_TUser. revert pak.
    destruct (cq && is_Read op); [now apply keeps_R_fail|].
    apply keeps_R_bind; try assumption; [|intros r; now apply keeps_R_ret].
    apply keeps_R_parse_args; try assumption.
    apply Forall_forall. rewrite Forall_forall in IH.
    intros T HT. now apply IH.
Qed.

Lemma Read_frame_refl pak : Read_frame pak pak.
Proof. unfold Read_frame. repeat split; lia. Qed.

Lemma Read_frame_trans p1 p2 p3 :
  Read_frame p1 p2 -> Read_frame p2 p3 -> Read_frame p1 p3.
Proof.
  unfold Read_frame. intros (Hb & Hr & Hw & Hp) (Hb' & Hr' & Hw' & Hp').
  repeat split; try congruence; lia.
Qed.

Lemma Read_frame_load {A} n (k : list Z -> A) :
  keeps Read_frame
    (rp <- get_readPosition ;; src <- load rp n ;; add_readPosition n ;; ret (k src)).
Proof.
  intros pak. unfold bind, get_readPosition, load, add_readPosition, ret.
  destruct n as [|n]; cbn.
  - unfold Read_frame; cbn; repeat split; lia.
  - destruct (_ <=? _)%nat; cbn; unfold Read_frame; cbn; repeat split; lia.
Qed.

Section Frames.

Variable host : Endian.
Variable key_comp : Value -> Value -> bool.

Lemma Read_frame_parse_arith cq T x :
  keeps Read_frame (parse_arith host Read cq T x).
Proof.
  cbn [parse_arith]. destruct cq.
  - apply keeps_R_fail, Read_frame_refl.
  - apply (Read_frame_load (sizeof T)
             (fun src => copyPrimitive host T (host_value host src))).
Qed.

Lemma Read_frame_parse_contiguous T c elems :
  keeps Read_frame (parse_contiguous host Read T c elems).
Proof.
  unfold parse_contiguous.
  destruct (all_bits elems) as [xs|]; [|apply keeps_R_fail, Read_frame_refl].
  cbv zeta. destruct c; [apply keeps_R_fail, Read_frame_refl|].
  apply (Read_frame_load (length xs * sizeof T)
           (fun src => map (fun c => VArith (host_value host c))
                         (chunks (sizeof T) (length xs)
                            (copyPrimitiveArray host T src)))).
Qed.

Lemma Read_frame_parse_args Ts args :
  keeps Read_frame (parse_args host key_comp Read Ts args).
Proof.
  apply (keeps_R_parse_args Read_frame_refl Read_frame_trans).
  apply Forall_forall. intros T _.
  apply (keeps_R_parse Read_frame host key_comp Read
           Read_frame_refl Read_frame_trans
           Read_frame_parse_arith Read_frame_parse_contiguous).
Qed.

End Frames.

(** Property X7.  [read] and [read<T>()] only look: whatever the argument
    types, the destinations and the [Pak], and whether the call ends with a
    result or fails half-way (a load past the end of the vector ends the
    traversal with [OutOfBounds]), the bytes of the buffer, its size, the
    write cursor and [reserveSize] are what they were, and the read cursor
    has not moved backwards. *)
Theorem read_keeps_bytes
    (host : Endian) (key_comp : Value -> Value -> bool)
    (Ts : list Ty) (args : list Value) (T : Ty) (pak : Pak) :
  let pak1 := snd (read host key_comp Ts args pak) in
  let pak2 := snd (read_T host key_comp T pak) in
  (data pak1 = data pak /\ size pak1 = size pak
   /\ writePosition pak1 = writePosition pak
   /\ reserveSize pak1 = reserveSize pak
   /\ (readPosition pak <= readPosition pak1)%nat)
  /\ (data pak2 = data pak /\ size pak2 = size pak
      /\ writePosition pak2 = writePosition pak
      /\ reserveSize pak2 = reserveSize pak
      /\ (readPosition pak <= readPosition pak2)%nat).
Proof.
  assert (H : forall q, Read_frame pak q ->
            data q = data pak /\ size q = size pak
            /\ writePosition q = writePosition pak
            /\ reserveSize q = reserveSize pak
            /\ (readPosition pak <= readPosition q)%nat).
  { intros q (Hb & Hr & Hw & Hp). unfold data, size. rewrite Hb. auto. }
  cbv zeta. split; apply H.
  - unfold read. destruct (forallb _ Ts).
    + apply Read_frame_parse_args.
    + apply Read_frame_refl.
  - unfold read_T. destruct (static_asserts_hold Read false T).
    + apply (keeps_R_parse Read_frame host key_comp Read
               Read_frame_refl Read_frame_trans
               (Read_frame_parse_arith host)
               (Read_frame_parse_contiguous host)).
    + apply Read_frame_refl.
Qed.

(** ** The [Pak] as a queue of encoded values *)








(** ** The encoding determines the value *)



